(** * Flock simulator: a shallow embedding of the behaviour engine

    The development follows the three source files of the package:
    [boid.py] (one agent), [flock.py] (the behaviour rules of a flock) and
    [simulation.py] (the world and its tick loop).

    Modelling conventions.
    - Python floats are read as real numbers ([R]): [+ - * /] are the field
      operations, [math.sqrt] is [sqrt], [math.hypot] and [math.dist] are the
      Euclidean norm and distance.  Rounding, infinities and NaN are outside
      the model.  A division by zero raises [ZeroDivisionError] in Python:
      every division of the source goes through [py_div], which raises on a
      zero divisor.
    - Python ints ([tracer_len], [count], the window size, colours) are [Z].
    - Objects are shared and mutated in place.  The world is the store: a
      boid is addressed by the index of its flock in [Simulation.flocks] and
      its own index in [Flock.boids], and object identity ([is], and [!=] on
      a class without [__eq__]) is equality of addresses.  Every boid is
      created by [Flock.__init__] with [flock=self] and kept in [self.boids]
      for the whole run, so the back reference [boid.flock] is the flock
      whose list holds the boid.
    - Exceptions are values of [exn]; a method that can raise returns a
      [result].  Nothing in the package catches an exception.
    - The calls to pygame (drawing, the display, sleeping) do not touch the
      simulated state and are left out of [tick] and [run]; the events that
      pygame delivers are an input of [run].  What a tick asks pygame to
      draw is modelled beside them, in [render_tick]. *)

From Stdlib Require Import Reals Lra Lia ZArith Ascii.
From stdpp Require Import base option list strings.

Local Open Scope R_scope.

(** ** Exceptions and results *)

Inductive exn : Type :=
| KeyError (msg : string)
| ValueError
| ZeroDivisionError.

Inductive result (A : Type) : Type :=
| Ok (a : A)
| Raise (e : exn).
Arguments Ok {A} a.
Arguments Raise {A} e.

Definition bind {A B : Type} (m : result A) (k : A -> result B) : result B :=
  match m with
  | Ok a => k a
  | Raise e => Raise e
  end.

Notation "'do' a <- m ; k" := (bind m (fun a => k))
  (at level 10, a name, m at level 100, k at level 200).

Definition returns {A : Type} (m : result A) : Prop := exists a, m = Ok a.

(** [a / b] on floats (or a float and an int). *)
Definition py_div (a b : R) : result R :=
  if Req_dec_T b 0 then Raise ZeroDivisionError else Ok (a / b).

(** ** The math module *)

Definition hypot (a b : R) : R := sqrt (a * a + b * b).

Definition dist (p q : R * R) : R :=
  sqrt ((fst p - fst q) * (fst p - fst q) + (snd p - snd q) * (snd p - snd q)).

(** [int(r)] on a float: truncation toward zero. *)
Definition py_int (r : R) : Z :=
  if Rle_dec 0 r then Int_part r else (- Int_part (- r))%Z.

(** [random.uniform(a, b)] is [a + (b - a) * random()], where [random()]
    returns a float in the half-open interval from 0 to 1.  The outcome [u] of
    that draw is an argument. *)
Definition uniform (a b : R) (u : R) : R := a + (b - a) * u.

Definition unit_draw (u : R) : Prop := 0 <= u < 1.

(** ** color.py *)

Definition ColorType : Type := Z * Z * Z.

Definition lighten (color : ColorType) (scale : R) : ColorType :=
  let '(c0, c1, c2) := color in
  let min_gap := Z.min (Z.min (255 - c0) (255 - c1)) (255 - c2) in
  let additional := IZR min_gap * scale in
  (Z.min (py_int (IZR c0 + additional)) 255,
   Z.min (py_int (IZR c1 + additional)) 255,
   Z.min (py_int (IZR c2 + additional)) 255).

(** ** Data model *)

(** [Boid]: the attributes set by [Boid.__init__], except the back reference
    [flock], which is the address of the flock holding the boid. *)
Record Boid : Type := mkBoid {
  x : R;
  y : R;
  vx : R;
  vy : R;
  pos_history : list (R * R)
}.

(** [Flock]: the attributes set by [Flock.__init__], except the back
    reference [simulation]. *)
Record Flock : Type := mkFlock {
  id : option string;
  num_boids : Z;
  affinity : list (string * R);
  alignment : R;
  separation : R;
  cohesion : R;
  min_separation : R;
  max_speed : R;
  boundary_force : R;
  sight_range : R;
  color : ColorType;
  tracer_len : Z;
  tracer_color : ColorType;
  tracer_enabled : bool;
  boids : list Boid
}.

(** [Simulation]: the attributes set by [Simulation.__init__], except the
    pygame window. *)
Record Simulation : Type := mkSimulation {
  width : Z;
  height : Z;
  background_color : ColorType;
  step_length : R;
  flocks : list Flock
}.

(** In-place assignments to attributes. *)
Definition set_velocity (b : Boid) (vx' vy' : R) : Boid :=
  {| x := x b; y := y b; vx := vx'; vy := vy'; pos_history := pos_history b |}.

Definition set_boids (f : Flock) (bs : list Boid) : Flock :=
  {| id := id f; num_boids := num_boids f; affinity := affinity f;
     alignment := alignment f; separation := separation f;
     cohesion := cohesion f; min_separation := min_separation f;
     max_speed := max_speed f; boundary_force := boundary_force f;
     sight_range := sight_range f; color := color f;
     tracer_len := tracer_len f; tracer_color := tracer_color f;
     tracer_enabled := tracer_enabled f; boids := bs |}.

Definition set_flocks (w : Simulation) (fs : list Flock) : Simulation :=
  {| width := width w; height := height w;
     background_color := background_color w; step_length := step_length w;
     flocks := fs |}.

Definition set_size (w : Simulation) (width' height' : Z) : Simulation :=
  {| width := width'; height := height';
     background_color := background_color w; step_length := step_length w;
     flocks := flocks w |}.

(** The store: reading and writing the boid at an address. *)
Definition get_boid (w : Simulation) (fi bi : nat) : option Boid :=
  match flocks w !! fi with
  | Some f => boids f !! bi
  | None => None
  end.

Definition put_boid (w : Simulation) (fi bi : nat) (b : Boid) : Simulation :=
  match flocks w !! fi with
  | Some f =>
      set_flocks w (<[fi := set_boids f (<[bi := b]> (boids f))]> (flocks w))
  | None => w
  end.

(** ** boid.py *)

(** [Boid.update_position]; [flock_tracer_len] is [self.flock.tracer_len]. *)
Definition update_position (flock_tracer_len : Z) (self : Boid) : Boid :=
  let appended := pos_history self ++ [(x self, y self)] in
  let history :=
    if (flock_tracer_len <? Z.of_nat (length appended))%Z
    then drop 1 appended
    else appended in
  {| x := x self + vx self; y := y self + vy self;
     vx := vx self; vy := vy self; pos_history := history |}.

(** [Boid.create_random]; the four draws are the outcomes of the four calls
    to [random.uniform], in the order of the source. *)
Definition create_random (min_position max_position : R * R)
    (min_velocity max_velocity : R) (draws : R * R * R * R) : Boid :=
  let '(u1, u2, u3, u4) := draws in
  let x0 := uniform (fst min_position) (fst max_position) u1 in
  let y0 := uniform (snd min_position) (snd max_position) u2 in
  let vx0 := uniform min_velocity max_velocity u3 in
  let vy0 := uniform min_velocity max_velocity u4 in
  {| x := x0; y := y0; vx := vx0; vy := vy0; pos_history := [] |}.

(** [Boid.in_range]; [flock_sight_range] is [self.flock.sight_range]. *)
Definition in_range (flock_sight_range : R) (self other : Boid) : bool :=
  if Rle_dec (dist (x self, y self) (x other, y other)) flock_sight_range
  then true else false.

(** ** flock.py *)

(** [for j, other in enumerate(l)]: the loops of the rules run over
    [self.boids]; the index stands for the identity of [other]. *)
Fixpoint for_in {A St : Type} (body : nat -> A -> St -> St) (j : nat)
    (l : list A) (s : St) : St :=
  match l with
  | [] => s
  | a :: rest => for_in body (S j) rest (body j a s)
  end.

(** [boid is not other] (and [other != boid]) for [other] at index [j] of the
    list that holds [boid] at index [bi]. *)
Definition is_not (bi j : nat) : bool := negb (Nat.eqb bi j).

(** Run a method body on the flock and the boid found at an address.  A
    method of the source always receives an object; an address that holds no
    boid has no counterpart there, and the embedded methods leave the store
    as it is ([dflt]). *)
Definition with_boid {A : Type} (w : Simulation) (fi bi : nat) (dflt : A)
    (k : Flock -> Boid -> A) : A :=
  match flocks w !! fi with
  | Some self =>
      match boids self !! bi with
      | Some boid => k self boid
      | None => dflt
      end
  | None => dflt
  end.

(** [min(l, key=...)]: the first element with the least key; [ValueError]
    on an empty list. *)
Fixpoint min_loop {A : Type} (key : A -> R) (best : A) (l : list A) : A :=
  match l with
  | [] => best
  | a :: rest =>
      min_loop key (if Rlt_dec (key a) (key best) then a else best) rest
  end.

Definition py_min {A : Type} (key : A -> R) (l : list A) : result A :=
  match l with
  | [] => Raise ValueError
  | a :: rest => Ok (min_loop key a rest)
  end.

(** [Simulation.absolute_coords] and [Simulation.get_flock] come first: the
    rules call them through [self.simulation]. *)
Definition absolute_coords (w : Simulation) (point : R * R) : R * R :=
  (fst point + IZR (width w) / 2, snd point + IZR (height w) / 2).

Definition dquote : string := String "034"%char EmptyString.

Definition no_flock_message (i : string) : string :=
  "No flock exists with id " +:+ dquote +:+ i +:+ dquote +:+ ".".

Definition get_flock (w : Simulation) (i : string) : result Flock :=
  match list_find (fun flock => id flock = Some i) (flocks w) with
  | Some (_, flock) => Ok flock
  | None => Raise (KeyError (no_flock_message i))
  end.

(** [Flock.rule_alignment] *)
Definition rule_alignment (w : Simulation) (fi bi : nat) : Simulation :=
  with_boid w fi bi w (fun self boid =>
    let avg :=
      for_in (fun j other avg =>
                if is_not bi j && in_range (sight_range self) boid other
                then (fst avg + vx other, snd avg + vy other)
                else avg)
             0 (boids self) (0, 0) in
    let avg_vx := (fst avg - vx boid) * alignment self in
    let avg_vy := (snd avg - vy boid) * alignment self in
    put_boid w fi bi (set_velocity boid (vx boid + avg_vx) (vy boid + avg_vy))).

(** [Flock.rule_separation] *)
Definition rule_separation (w : Simulation) (fi bi : nat) : Simulation :=
  with_boid w fi bi w (fun self boid =>
    let v :=
      for_in (fun j other v =>
                if is_not bi j then
                  if Rlt_dec (dist (x boid, y boid) (x other, y other))
                             (min_separation self)
                  then (fst v + (x boid - x other), snd v + (y boid - y other))
                  else v
                else v)
             0 (boids self) (0, 0) in
    put_boid w fi bi
      (set_velocity boid (vx boid + fst v * separation self)
                         (vy boid + snd v * separation self))).

(** [Flock.rule_cohesion]; the accumulator is [(center_x, center_y,
    num_neighbors)]. *)
Definition rule_cohesion (w : Simulation) (fi bi : nat) : result Simulation :=
  with_boid w fi bi (Ok w) (fun self boid =>
    let '(center_x, center_y, num_neighbors) :=
      for_in (fun j other acc =>
                if is_not bi j && in_range (sight_range self) boid other
                then (fst (fst acc) + x other, snd (fst acc) + y other,
                      S (snd acc))
                else acc)
             0 (boids self) (0, 0, O) in
    if Nat.eqb num_neighbors 0 then Ok w
    else
      do center_x <- py_div center_x (INR num_neighbors);
      do center_y <- py_div center_y (INR num_neighbors);
      Ok (put_boid w fi bi
            (set_velocity boid
               (vx boid + (center_x - x boid) * cohesion self)
               (vy boid + (center_y - y boid) * cohesion self)))).

(** [Flock.rule_affinity]: one iteration per entry of [self.affinity]; the
    boid is read from the store again at every iteration. *)
Fixpoint rule_affinity_loop (w : Simulation) (fi bi : nat)
    (entries : list (string * R)) : result Simulation :=
  match entries with
  | [] => Ok w
  | (flock_id, aff) :: rest =>
      with_boid w fi bi (Ok w) (fun self boid =>
        do flock <- get_flock w flock_id;
        do closest <- py_min (fun other =>
                                dist (x boid, y boid) (x other, y other))
                             (boids flock);
        let w' :=
          if in_range (sight_range self) boid closest
          then put_boid w fi bi
                 (set_velocity boid
                    (vx boid + (x closest - x boid) * aff)
                    (vy boid + (y closest - y boid) * aff))
          else w in
        rule_affinity_loop w' fi bi rest)
  end.

Definition rule_affinity (w : Simulation) (fi bi : nat) : result Simulation :=
  with_boid w fi bi (Ok w) (fun self _ =>
    rule_affinity_loop w fi bi (affinity self)).

(** [Flock.limit_speed]; both assignments divide by [speed], and the first
    division raises before anything is assigned. *)
Definition limit_speed (w : Simulation) (fi bi : nat) : result Simulation :=
  with_boid w fi bi (Ok w) (fun self boid =>
    let speed := hypot (vx boid) (vy boid) in
    if Rgt_dec speed (max_speed self) then
      do qx <- py_div (vx boid) speed;
      do qy <- py_div (vy boid) speed;
      Ok (put_boid w fi bi
            (set_velocity boid (qx * max_speed self) (qy * max_speed self)))
    else Ok w).

(** [_set_magnitude] *)
Definition _set_magnitude (v : R * R) (magnitude : R) : result (R * R) :=
  let '(x, y) := v in
  let current_magnitude := sqrt (x ^ 2 + y ^ 2) in
  if Req_dec_T current_magnitude 0 then Ok (0, 0)
  else
    do scale_factor <- py_div magnitude current_magnitude;
    Ok (x * scale_factor, y * scale_factor).

(** The velocity that [Flock.keep_in_bounds] leaves in the boid: [pos] is the
    boid's position, [v] its velocity on entry. *)
Definition corrected_velocity (w : Simulation) (self : Flock)
    (pos v : R * R) : R * R :=
  let '(ax, ay) := absolute_coords w pos in
  let vx1 :=
    if Rlt_dec ax 0 then fst v + boundary_force self
    else if Rgt_dec ax (IZR (width w)) then fst v - boundary_force self
    else fst v in
  let vy1 :=
    if Rlt_dec ay 0 then snd v + boundary_force self
    else if Rgt_dec ay (IZR (height w)) then snd v - boundary_force self
    else snd v in
  (vx1, vy1).

(** [Flock.keep_in_bounds] *)
Definition keep_in_bounds (w : Simulation) (fi bi : nat) : result Simulation :=
  with_boid w fi bi (Ok w) (fun self boid =>
    let magnitude := hypot (vx boid) (vy boid) in
    let v1 := corrected_velocity w self (x boid, y boid) (vx boid, vy boid) in
    let new_magnitude := hypot (fst v1) (snd v1) in
    do v2 <- (if Rgt_dec new_magnitude magnitude
              then _set_magnitude v1 magnitude
              else Ok v1);
    Ok (put_boid w fi bi (set_velocity boid (fst v2) (snd v2)))).

(** The call [boid.update_position()] at the end of [update_boid]. *)
Definition move_boid (w : Simulation) (fi bi : nat) : Simulation :=
  with_boid w fi bi w (fun self boid =>
    put_boid w fi bi (update_position (tracer_len self) boid)).

(** [Flock.update_boid] *)
Definition update_boid (w : Simulation) (fi bi : nat) : result Simulation :=
  let w := rule_alignment w fi bi in
  do w <- rule_cohesion w fi bi;
  let w := rule_separation w fi bi in
  do w <- rule_affinity w fi bi;
  do w <- limit_speed w fi bi;
  do w <- keep_in_bounds w fi bi;
  Ok (move_boid w fi bi).

(** [sum(...)] over a list of floats. *)
Definition py_sum (l : list R) : R := foldl Rplus 0 l.

(** [Flock.get_center] *)
Definition get_center (self : Flock) : result (R * R) :=
  do cx <- py_div (py_sum (map x (boids self))) (INR (length (boids self)));
  do cy <- py_div (py_sum (map y (boids self))) (INR (length (boids self)));
  Ok (cx, cy).

(** [Flock.__init__].  [sim_width] and [sim_height] are
    [self.simulation.width] and [self.simulation.height]; [rng k] is the
    outcome of the [k]-th call to [random()] of the run, and [k0] counts the
    calls made before this constructor. *)
Fixpoint create_boids (dimensions : R * R) (min_velocity max_velocity : R)
    (rng : nat -> R) (k : nat) (n : nat) : list Boid :=
  match n with
  | O => []
  | S n' =>
      create_random (0, 0) dimensions min_velocity max_velocity
        (rng k, rng (k + 1)%nat, rng (k + 2)%nat, rng (k + 3)%nat)
      :: create_boids dimensions min_velocity max_velocity rng (k + 4)%nat n'
  end.

Definition Flock_init (sim_width sim_height : Z) (id : option string)
    (num_boids : Z) (affinity : list (string * R))
    (alignment separation cohesion min_separation max_speed boundary_force
     sight_range : R)
    (color : ColorType) (tracer_len : Z) (tracer_shade : R)
    (tracer_enabled : bool) (rng : nat -> R) (k0 : nat) : Flock :=
  let dimensions := (IZR sim_width / 2, IZR sim_height / 2) in
  let min_velocity := -1 in
  let max_velocity := 1 in
  {| id := id; num_boids := num_boids; affinity := affinity;
     alignment := alignment; separation := separation; cohesion := cohesion;
     min_separation := min_separation; max_speed := max_speed;
     boundary_force := boundary_force; sight_range := sight_range;
     color := color; tracer_len := tracer_len;
     tracer_color := lighten color tracer_shade;
     tracer_enabled := tracer_enabled;
     boids := create_boids dimensions min_velocity max_velocity rng k0
                (Z.to_nat num_boids) |}.

(** One entry of the [flocks] array of the configuration, with every
    required key present. *)
Record FlockConfig : Type := mkFlockConfig {
  cfg_id : option string;
  cfg_count : Z;
  cfg_affinity : option (list (string * R));
  cfg_alignment : R;
  cfg_separation : R;
  cfg_cohesion : R;
  cfg_min_separation : R;
  cfg_max_speed : R;
  cfg_boundary_force : R;
  cfg_sight_range : R;
  cfg_color : ColorType;
  cfg_tracer_length : Z;
  cfg_tracer_shade : R;
  cfg_tracer_enabled : bool
}.

(** [Flock.from_config] *)
Definition from_config (sim_width sim_height : Z) (config : FlockConfig)
    (rng : nat -> R) (k0 : nat) : Flock :=
  Flock_init sim_width sim_height (cfg_id config) (cfg_count config)
    (default [] (cfg_affinity config))
    (cfg_alignment config) (cfg_separation config) (cfg_cohesion config)
    (cfg_min_separation config) (cfg_max_speed config)
    (cfg_boundary_force config) (cfg_sight_range config) (cfg_color config)
    (cfg_tracer_length config) (cfg_tracer_shade config)
    (cfg_tracer_enabled config) rng k0.

(** ** simulation.py *)

(** [Simulation.__init__]: the flocks are built in the order of the
    configuration, each one drawing four numbers per boid. *)
Fixpoint make_flocks (sim_width sim_height : Z) (flock_config : list FlockConfig)
    (rng : nat -> R) (k : nat) : list Flock :=
  match flock_config with
  | [] => []
  | conf :: rest =>
      let flock := from_config sim_width sim_height conf rng k in
      flock :: make_flocks sim_width sim_height rest rng
                 (k + 4 * length (boids flock))%nat
  end.

Definition Simulation_init (flock_config : list FlockConfig)
    (window_size : Z * Z) (background_color : ColorType) (step_length : R)
    (rng : nat -> R) : Simulation :=
  {| width := fst window_size; height := snd window_size;
     background_color := background_color; step_length := step_length;
     flocks := make_flocks (fst window_size) (snd window_size) flock_config
                 rng 0 |}.

(** The pass of [Simulation.run] that updates the boids:
    [for flock in self.flocks: for boid in flock.boids:
    flock.update_boid(boid)].  Each call sees the store as the calls before
    it left it. *)
Fixpoint update_boids (w : Simulation) (fi : nat) (bis : list nat)
    : result Simulation :=
  match bis with
  | [] => Ok w
  | bi :: rest => do w' <- update_boid w fi bi; update_boids w' fi rest
  end.

Definition flock_size (w : Simulation) (fi : nat) : nat :=
  match flocks w !! fi with
  | Some flock => length (boids flock)
  | None => O
  end.

Fixpoint update_flocks (w : Simulation) (fis : list nat) : result Simulation :=
  match fis with
  | [] => Ok w
  | fi :: rest =>
      do w' <- update_boids w fi (seq 0 (flock_size w fi));
      update_flocks w' rest
  end.

Definition tick (w : Simulation) : result Simulation :=
  update_flocks w (seq 0 (length (flocks w))).

(** The events polled at the end of a tick. *)
Inductive event : Type :=
| QUIT
| VIDEORESIZE (w h : Z)
| OTHER.

(** [for event in pygame.event.get()]; [None] is [sys.exit()]. *)
Fixpoint handle_events (w : Simulation) (events : list event)
    : option Simulation :=
  match events with
  | [] => Some w
  | QUIT :: _ => None
  | VIDEORESIZE w' h' :: rest => handle_events (set_size w w' h') rest
  | OTHER :: rest => handle_events w rest
  end.

Inductive outcome : Type :=
| Running (w : Simulation)
| Exited
| Failed (e : exn).

(** [Simulation.run], for as many ticks as there are batches of events in
    [polls]; a run still going after them is [Running]. *)
Fixpoint run (w : Simulation) (polls : list (list event)) : outcome :=
  match polls with
  | [] => Running w
  | events :: rest =>
      match tick w with
      | Raise e => Failed e
      | Ok w' =>
          match handle_events w' events with
          | None => Exited
          | Some w'' => run w'' rest
          end
      end
  end.

(** ** The rules as the specification words them

    These definitions follow the text of the specification, not the code;
    the theorems below compare them with the loops of [flock.py]. *)

#[local] Instance Rlt_decision (a b : R) : Decision (a < b) := Rlt_dec a b.
#[local] Instance Rle_decision (a b : R) : Decision (a <= b) := Rle_dec a b.

Definition sum_R (l : list R) : R := foldr Rplus 0 l.

(** All other agents of the same flock. *)
Definition others (self : Flock) (bi : nat) : list Boid :=
  delete bi (boids self).

(** The other agents within [sight_range] of [boid]. *)
Definition visible_neighbors (self : Flock) (bi : nat) (boid : Boid)
    : list Boid :=
  filter (fun other =>
            dist (x boid, y boid) (x other, y other) <= sight_range self)
         (others self bi).

(** The other agents strictly closer to [boid] than [min_separation]. *)
Definition crowding_neighbors (self : Flock) (bi : nat) (boid : Boid)
    : list Boid :=
  filter (fun other =>
            dist (x boid, y boid) (x other, y other) < min_separation self)
         (others self bi).

(** Arithmetic mean of a list, zero for the empty list. *)
Definition mean (l : list R) : R :=
  match l with
  | [] => 0
  | _ :: _ => sum_R l / INR (length l)
  end.

(** Alignment as specified: the velocity after adding
    [(mean_velocity - velocity) * alignment]. *)
Definition alignment_spec (self : Flock) (bi : nat) (boid : Boid) : R * R :=
  let mean_vx := mean (map vx (visible_neighbors self bi boid)) in
  let mean_vy := mean (map vy (visible_neighbors self bi boid)) in
  (vx boid + (mean_vx - vx boid) * alignment self,
   vy boid + (mean_vy - vy boid) * alignment self).

(** Separation as specified: the velocity after adding the sum of
    [position - neighbor.position] over the crowding neighbours, scaled by
    [separation]. *)
Definition separation_spec (self : Flock) (bi : nat) (boid : Boid) : R * R :=
  let crowd := crowding_neighbors self bi boid in
  (vx boid + sum_R (map (fun other => x boid - x other) crowd) * separation self,
   vy boid + sum_R (map (fun other => y boid - y other) crowd) * separation self).

(** The trail invariant: in a flock whose [tracer_len] is not negative no
    trail is longer than [tracer_len]. *)
Definition trail_bounded (w : Simulation) : Prop :=
  forall fi flock bi boid,
    flocks w !! fi = Some flock ->
    boids flock !! bi = Some boid ->
    (0 <= tracer_len flock)%Z ->
    (Z.of_nat (length (pos_history boid)) <= tracer_len flock)%Z.

(** Everything of a flock but its boids. *)
Definition parameters (f : Flock) : Flock := set_boids f [].

(** [w'] differs from [w] at most in the boid at address [(fi, bi)]. *)
Record only_boid_changed (fi bi : nat) (w w' : Simulation) : Prop := {
  frame_width : width w' = width w;
  frame_height : height w' = height w;
  frame_background : background_color w' = background_color w;
  frame_step : step_length w' = step_length w;
  frame_flocks : length (flocks w') = length (flocks w);
  frame_parameters : forall k f, flocks w !! k = Some f ->
    exists f', flocks w' !! k = Some f' /\ parameters f' = parameters f /\
               length (boids f') = length (boids f);
  frame_boids : forall k j, (k, j) <> (fi, bi) ->
    get_boid w' k j = get_boid w k j
}.

(** An affinity list whose every target resolves to a flock with at least
    one boid. *)
Definition resolvable (w : Simulation) (entries : list (string * R)) : Prop :=
  Forall (fun entry => exists flock,
            get_flock w (fst entry) = Ok flock /\ boids flock <> []) entries.

(** ** Auxiliary notions of the proofs *)

(** The part of [self.boids] that a loop started at index [j] still has to
    visit, without the boid at index [bi]. *)
Definition unvisited_others (bi j : nat) (l : list Boid) : list Boid :=
  if decide (j <= bi)%nat then delete (bi - j)%nat l else l.

(** The boid after [limit_speed] and after [keep_in_bounds], when they
    return. *)
Definition clamp_velocity (self : Flock) (boid : Boid) : Boid :=
  let speed := hypot (vx boid) (vy boid) in
  if Rgt_dec speed (max_speed self)
  then set_velocity boid ((vx boid / speed) * max_speed self)
                         ((vy boid / speed) * max_speed self)
  else boid.

Definition steer_inside (w : Simulation) (self : Flock) (boid : Boid) : Boid :=
  let magnitude := hypot (vx boid) (vy boid) in
  let v1 := corrected_velocity w self (x boid, y boid) (vx boid, vy boid) in
  let new_magnitude := hypot (fst v1) (snd v1) in
  if Rgt_dec new_magnitude magnitude
  then set_velocity boid (fst v1 * (magnitude / new_magnitude))
                         (snd v1 * (magnitude / new_magnitude))
  else set_velocity boid (fst v1) (snd v1).

Definition velocity_written (fi bi : nat) (boid : Boid) (w w' : Simulation)
    : Prop :=
  exists vx' vy', w' = put_boid w fi bi (set_velocity boid vx' vy').

Definition inside (w : Simulation) (boid : Boid) : Prop :=
  0 <= x boid + IZR (width w) / 2 <= IZR (width w) /\
  0 <= y boid + IZR (height w) / 2 <= IZR (height w).

(** The setting of the example: one flock of two agents at rest, at (0,0)
    and (3,0), with the weights of the example. *)
Definition two_agent_example (w : Simulation) (f : Flock) (a b : Boid) : Prop :=
  flocks w = [f] /\ boids f = [a; b] /\
  alignment f = 0 /\ cohesion f = 0 /\ separation f = 1 /\
  min_separation f = 10 /\ max_speed f = 100 /\
  (x a, y a) = (0, 0) /\ (x b, y b) = (3, 0) /\
  (vx a, vy a) = (0, 0) /\ (vx b, vy b) = (0, 0).

(** The first agent of the example after its update, and the second agent
    after its own. *)
Definition first_moved (f : Flock) (a : Boid) : Boid :=
  update_position (tracer_len f) (set_velocity a (-3) 0).

Definition second_moved (f : Flock) (b : Boid) : Boid :=
  update_position (tracer_len f) (set_velocity b 6 0).

Definition unknown_id (w : Simulation) (i : string) : Prop :=
  forall flock, flock ∈ flocks w -> id flock <> Some i.

(** The rectangle centred at the origin whose sides are half the width and
    half the height of the window. *)
Definition centered_half_window (sim_width sim_height : Z) (p : R * R) : Prop :=
  - (IZR sim_width / 2) / 2 <= fst p <= (IZR sim_width / 2) / 2 /\
  - (IZR sim_height / 2) / 2 <= snd p <= (IZR sim_height / 2) / 2.

(** The rectangle with the origin as a corner, half the width wide and half
    the height high. *)
Definition corner_half_window (sim_width sim_height : Z) (p : R * R) : Prop :=
  0 <= fst p <= IZR sim_width / 2 /\ 0 <= snd p <= IZR sim_height / 2.

Definition same_parameters (f f' : Flock) : Prop :=
  id f' = id f /\ num_boids f' = num_boids f /\ affinity f' = affinity f /\
  alignment f' = alignment f /\ separation f' = separation f /\
  cohesion f' = cohesion f /\ min_separation f' = min_separation f /\
  max_speed f' = max_speed f /\ boundary_force f' = boundary_force f /\
  sight_range f' = sight_range f /\ color f' = color f /\
  tracer_len f' = tracer_len f /\ tracer_color f' = tracer_color f /\
  tracer_enabled f' = tracer_enabled f.

(** Every affinity target resolves to a flock with a boid, and no
    [max_speed] is negative. *)
Definition well_configured (w : Simulation) : Prop :=
  forall k f, flocks w !! k = Some f ->
              resolvable w (affinity f) /\ 0 <= max_speed f.

(** ** Example worlds *)

Definition rest_at (px py : R) : Boid :=
  {| x := px; y := py; vx := 0; vy := 0; pos_history := [] |}.

(** The flock of the two-agent example, in a window of 800 by 600. *)
Definition example_flock : Flock :=
  {| id := None; num_boids := 2; affinity := [];
     alignment := 0; separation := 1; cohesion := 0;
     min_separation := 10; max_speed := 100; boundary_force := 1;
     sight_range := 50; color := (255, 255, 255)%Z; tracer_len := 10;
     tracer_color := (255, 255, 255)%Z; tracer_enabled := true;
     boids := [rest_at 0 0; rest_at 3 0] |}.

Definition example_world : Simulation :=
  {| width := 800; height := 600; background_color := (0, 0, 0)%Z;
     step_length := 1 / 20; flocks := [example_flock] |}.

(** Three agents within sight of each other; two of them move. *)
Definition aligned_trio : Flock :=
  {| id := None; num_boids := 3; affinity := [];
     alignment := 1; separation := 0; cohesion := 0;
     min_separation := 0; max_speed := 100; boundary_force := 1;
     sight_range := 50; color := (255, 255, 255)%Z; tracer_len := 10;
     tracer_color := (255, 255, 255)%Z; tracer_enabled := true;
     boids := [rest_at 0 0;
               {| x := 1; y := 0; vx := 1; vy := 0; pos_history := [] |};
               {| x := 0; y := 1; vx := 1; vy := 0; pos_history := [] |}] |}.

Definition trio_world : Simulation :=
  {| width := 800; height := 600; background_color := (0, 0, 0)%Z;
     step_length := 1 / 20; flocks := [aligned_trio] |}.

(** A flock chasing a flock that was configured with [count = 0]. *)
Definition hunters : Flock :=
  {| id := Some "hunters"; num_boids := 1; affinity := [("prey", 1)];
     alignment := 0; separation := 0; cohesion := 0;
     min_separation := 10; max_speed := 100; boundary_force := 1;
     sight_range := 50; color := (255, 0, 0)%Z; tracer_len := 10;
     tracer_color := (255, 0, 0)%Z; tracer_enabled := true;
     boids := [rest_at 0 0] |}.

Definition no_prey : Flock :=
  {| id := Some "prey"; num_boids := 0; affinity := [];
     alignment := 0; separation := 0; cohesion := 0;
     min_separation := 10; max_speed := 100; boundary_force := 1;
     sight_range := 50; color := (0, 255, 0)%Z; tracer_len := 10;
     tracer_color := (0, 255, 0)%Z; tracer_enabled := true;
     boids := [] |}.

Definition hunt_world : Simulation :=
  {| width := 800; height := 600; background_color := (0, 0, 0)%Z;
     step_length := 1 / 20; flocks := [hunters; no_prey] |}.

(** The same flock chasing a flock of one agent. *)
Definition prey_flock : Flock :=
  {| id := Some "prey"; num_boids := 1; affinity := [];
     alignment := 0; separation := 0; cohesion := 0;
     min_separation := 10; max_speed := 100; boundary_force := 1;
     sight_range := 50; color := (0, 255, 0)%Z; tracer_len := 10;
     tracer_color := (0, 255, 0)%Z; tracer_enabled := true;
     boids := [rest_at 5 0] |}.

Definition fed_world : Simulation :=
  {| width := 800; height := 600; background_color := (0, 0, 0)%Z;
     step_length := 1 / 20; flocks := [hunters; prey_flock] |}.





(** One boid built by [Flock.__init__] in a window of 800 by 600, every draw
    of [random()] being [u]. *)
Definition drawn_flock (u : R) : Flock :=
  Flock_init 800 600 None 1 [] 0 1 0 10 100 1 50 (255, 255, 255)%Z 10 (1 / 2)
    true (fun _ => u) 0.

(** An agent right of the window, still moving away from it. *)
Definition stray : Boid :=
  {| x := 500; y := 0; vx := 3; vy := 4; pos_history := [] |}.

Definition stray_flock : Flock :=
  {| id := None; num_boids := 1; affinity := [];
     alignment := 0; separation := 0; cohesion := 0;
     min_separation := 10; max_speed := 100; boundary_force := 1;
     sight_range := 50; color := (255, 255, 255)%Z; tracer_len := 10;
     tracer_color := (255, 255, 255)%Z; tracer_enabled := true;
     boids := [stray] |}.

Definition stray_world : Simulation :=
  {| width := 800; height := 600; background_color := (0, 0, 0)%Z;
     step_length := 1 / 20; flocks := [stray_flock] |}.

(** ** Notions used by the further properties *)

(** [closest] is the first boid of [l] at the least distance from [boid]:
    the boids before it are strictly farther, the boids after it are not
    nearer. *)
Definition first_nearest (boid closest : Boid) (l : list Boid) : Prop :=
  exists before after,
    l = before ++ closest :: after /\
    (forall other, other ∈ before ->
       dist (x boid, y boid) (x closest, y closest)
       < dist (x boid, y boid) (x other, y other)) /\
    (forall other, other ∈ after ->
       dist (x boid, y boid) (x closest, y closest)
       <= dist (x boid, y boid) (x other, y other)).

(** Two agents 5 apart, in sight of each other, that move. *)
Definition movers : Flock :=
  {| id := Some "movers"; num_boids := 2; affinity := [("movers", 1)];
     alignment := 1 / 2; separation := 0; cohesion := 1 / 2;
     min_separation := 0; max_speed := 1; boundary_force := 1;
     sight_range := 50; color := (10, 20, 30)%Z; tracer_len := 2;
     tracer_color := (235, 245, 255)%Z; tracer_enabled := true;
     boids := [ {| x := 0; y := 0; vx := 3; vy := 4; pos_history := [] |};
                {| x := 3; y := 4; vx := 1; vy := 0; pos_history := [] |} ] |}.

Definition movers_world : Simulation :=
  {| width := 800; height := 600; background_color := (0, 0, 0)%Z;
     step_length := 1 / 20; flocks := [movers] |}.

(** An agent at rest far outside the window of the example. *)
Definition sleeper_flock : Flock :=
  set_boids stray_flock [rest_at 5000 5000].

Definition sleeper_world : Simulation :=
  set_flocks stray_world [sleeper_flock].

(** A property of trails, given the [tracer_len] of the flock, that holds of
    every boid. *)
Definition trail_invariant (P : Z -> list (R * R) -> Prop) (w : Simulation)
    : Prop :=
  forall fi flock bi boid,
    flocks w !! fi = Some flock -> boids flock !! bi = Some boid ->
    P (tracer_len flock) (pos_history boid).

(** [w'] has the flocks of [w], each with the same parameters and as many
    boids. *)
Definition same_population (w w' : Simulation) : Prop :=
  length (flocks w') = length (flocks w) /\
  forall k f, flocks w !! k = Some f ->
    exists f', flocks w' !! k = Some f' /\ same_parameters f f' /\
               length (boids f') = length (boids f).

(** A configuration of one flock of one boid without a trail. *)
Definition trailless_config : FlockConfig :=
  {| cfg_id := None; cfg_count := 1; cfg_affinity := None;
     cfg_alignment := 0; cfg_separation := 0; cfg_cohesion := 0;
     cfg_min_separation := 10; cfg_max_speed := 1; cfg_boundary_force := 1;
     cfg_sight_range := 50; cfg_color := (255, 255, 255)%Z;
     cfg_tracer_length := 0; cfg_tracer_shade := 1 / 2;
     cfg_tracer_enabled := true |}.

Definition trailless_world : Simulation :=
  Simulation_init [trailless_config] (800, 600)%Z (0, 0, 0)%Z (1 / 20)
    (fun _ => 1 / 2).

(** The number of calls to [random()] made for the first [k] flocks of a
    configuration: four for every boid. *)
Definition draws_before (flock_config : list FlockConfig) (k : nat) : nat :=
  4 * sum_list (map (fun conf => Z.to_nat (cfg_count conf))
                    (take k flock_config)).

(** Two flocks named [prey]: the first is found. *)
Definition twin_world : Simulation :=
  set_flocks hunt_world [hunters; prey_flock; no_prey].

(** The requests made to pygame: [window.fill], [pygame.draw.lines],
    [pygame.draw.circle] and [pygame.display.update]. *)
Inductive draw : Type :=
| Fill (c : ColorType)
| Lines (c : ColorType) (closed : bool) (points : list (R * R))
| Circle (c : ColorType) (center : R * R) (radius : Z)
| DisplayUpdate.

(** [Simulation.draw_tracer]; [flock] is [boid.flock]. *)
Definition draw_tracer (w : Simulation) (flock : Flock) (boid : Boid)
    : list draw :=
  let absolute_points := map (absolute_coords w) (pos_history boid) in
  if (2 <? length absolute_points)%nat
  then [Lines (tracer_color flock) false absolute_points]
  else [].

(** [Simulation.draw_entity]; [flock] is [boid.flock]. *)
Definition draw_entity (w : Simulation) (flock : Flock) (boid : Boid) : draw :=
  let entity_size := 3%Z in
  let pos := absolute_coords w (x boid, y boid) in
  Circle (color flock) pos entity_size.

(** The first pass of a tick: the tracers of the flocks that enable them. *)
Definition draw_tracers (w : Simulation) : list draw :=
  flat_map (fun flock =>
              if tracer_enabled flock
              then flat_map (draw_tracer w flock) (boids flock)
              else [])
           (flocks w).

(** The second pass of a tick, with its drawing: each boid is drawn and then
    updated before the next one is drawn. *)
Fixpoint draw_and_update_boids (w : Simulation) (fi : nat) (bis : list nat)
    : result (list draw * Simulation) :=
  match bis with
  | [] => Ok ([], w)
  | bi :: rest =>
      let drawn :=
        with_boid w fi bi [] (fun flock boid => [draw_entity w flock boid]) in
      do w1 <- update_boid w fi bi;
      do r <- draw_and_update_boids w1 fi rest;
      Ok (drawn ++ fst r, snd r)
  end.

Fixpoint draw_and_update_flocks (w : Simulation) (fis : list nat)
    : result (list draw * Simulation) :=
  match fis with
  | [] => Ok ([], w)
  | fi :: rest =>
      do r1 <- draw_and_update_boids w fi (seq 0 (flock_size w fi));
      do r2 <- draw_and_update_flocks (snd r1) rest;
      Ok (fst r1 ++ fst r2, snd r2)
  end.

(** One tick of [Simulation.run] up to [pygame.display.update()]: what was
    drawn, and the world after the updates. *)
Definition render_tick (w : Simulation) : result (list draw * Simulation) :=
  let tracers := draw_tracers w in
  do r <- draw_and_update_flocks w (seq 0 (length (flocks w)));
  Ok (Fill (background_color w) :: tracers ++ fst r ++ [DisplayUpdate], snd r).

(** The markers of all boids as they stand in [w]. *)
Definition bodies (w : Simulation) : list draw :=
  flat_map (fun flock => map (draw_entity w flock) (boids flock)) (flocks w).

(** Why resolving the affinity entry for the id [i] raises [e] in [w]. *)
Definition affinity_failure (w : Simulation) (i : string) (e : exn) : Prop :=
  (unknown_id w i /\ e = KeyError (no_flock_message i)) \/
  (exists target,
     get_flock w i = Ok target /\ boids target = [] /\ e = ValueError).

(** ** Real arithmetic of the rules *)

Lemma hypot_nonneg a b : 0 <= hypot a b.
Proof. apply sqrt_pos. Qed.

Lemma sum_squares_nonneg a b : 0 <= a * a + b * b.
Proof. nra. Qed.

Lemma hypot_scale a b k : 0 <= k -> hypot (a * k) (b * k) = k * hypot a b.
Proof.
  intros Hk. unfold hypot.
  replace (a * k * (a * k) + b * k * (b * k)) with (k * k * (a * a + b * b))
    by ring.
  rewrite sqrt_mult by (nra || apply sum_squares_nonneg).
  now rewrite sqrt_square.
Qed.

Lemma div_nonneg a b : 0 <= a -> 0 < b -> 0 <= a / b.
Proof. intros Ha Hb. unfold Rdiv. now apply Rle_mult_inv_pos. Qed.

Lemma hypot_pow2 a b : sqrt (a ^ 2 + b ^ 2) = hypot a b.
Proof. unfold hypot. f_equal. ring. Qed.

Lemma hypot_zero a b : hypot a b = 0 -> a = 0 /\ b = 0.
Proof.
  intros H. apply sqrt_eq_0 in H; [|apply sum_squares_nonneg].
  split; nra.
Qed.

Lemma hypot_le_iff a b r : 0 <= r -> hypot a b <= r <-> a * a + b * b <= r * r.
Proof.
  intros Hr. unfold hypot. split; intros H.
  - apply sqrt_le_0; [apply sum_squares_nonneg|nra|].
    now rewrite sqrt_square.
  - rewrite <- (sqrt_square r) by assumption.
    apply sqrt_le_1; [apply sum_squares_nonneg|nra|assumption].
Qed.

Lemma hypot_lt_iff a b r : 0 <= r -> hypot a b < r <-> a * a + b * b < r * r.
Proof.
  intros Hr. unfold hypot. split; intros H.
  - apply sqrt_lt_0_alt. now rewrite sqrt_square.
  - rewrite <- (sqrt_square r) by assumption.
    apply sqrt_lt_1; [apply sum_squares_nonneg|nra|assumption].
Qed.

Lemma dist_hypot p q : dist p q = hypot (fst p - fst q) (snd p - snd q).
Proof. reflexivity. Qed.

(** ** The store *)

Lemma flocks_put_boid w fi bi b self :
  flocks w !! fi = Some self ->
  flocks (put_boid w fi bi b)
  = <[fi := set_boids self (<[bi := b]> (boids self))]> (flocks w).
Proof. intros H. unfold put_boid. now rewrite H. Qed.

Lemma lookup_put_boid_eq w fi bi b self :
  flocks w !! fi = Some self ->
  flocks (put_boid w fi bi b) !! fi
  = Some (set_boids self (<[bi := b]> (boids self))).
Proof.
  intros H. rewrite (flocks_put_boid _ _ _ _ _ H).
  apply list_lookup_insert_eq. now apply lookup_lt_Some in H.
Qed.

Lemma lookup_put_boid_ne w fi bi b k :
  k <> fi -> flocks (put_boid w fi bi b) !! k = flocks w !! k.
Proof.
  intros Hk. unfold put_boid. destruct (flocks w !! fi) eqn:E; [|reflexivity].
  cbn. now apply list_lookup_insert_ne.
Qed.

Lemma get_put_boid_eq w fi bi b :
  is_Some (get_boid w fi bi) -> get_boid (put_boid w fi bi b) fi bi = Some b.
Proof.
  unfold get_boid. destruct (flocks w !! fi) as [self|] eqn:E.
  - intros Hb. rewrite (lookup_put_boid_eq _ _ _ _ _ E). cbn.
    apply list_lookup_insert_eq. now apply lookup_lt_is_Some.
  - intros [? ?]. discriminate.
Qed.

Lemma get_put_boid_ne w fi bi b k j :
  (k, j) <> (fi, bi) -> get_boid (put_boid w fi bi b) k j = get_boid w k j.
Proof.
  intros Hne. unfold get_boid.
  destruct (decide (k = fi)) as [->|Hk].
  - destruct (flocks w !! fi) as [self|] eqn:E.
    + rewrite (lookup_put_boid_eq _ _ _ _ _ E). cbn.
      apply list_lookup_insert_ne. congruence.
    + unfold put_boid. now rewrite E, E.
  - now rewrite lookup_put_boid_ne.
Qed.

(** ** Frames *)

Lemma only_boid_changed_refl fi bi w : only_boid_changed fi bi w w.
Proof. split; eauto. Qed.

Lemma only_boid_changed_trans fi bi w1 w2 w3 :
  only_boid_changed fi bi w1 w2 -> only_boid_changed fi bi w2 w3 ->
  only_boid_changed fi bi w1 w3.
Proof.
  intros [] []. split; try congruence.
  - intros k f Hf.
    destruct (frame_parameters0 k f Hf) as (f2 & H2 & Hp2 & Hl2).
    destruct (frame_parameters1 k f2 H2) as (f3 & H3 & Hp3 & Hl3).
    exists f3. repeat split; congruence.
  - intros k j Hne. rewrite frame_boids1, frame_boids0; auto.
Qed.

Lemma put_boid_frame w fi bi b : only_boid_changed fi bi w (put_boid w fi bi b).
Proof.
  destruct (flocks w !! fi) as [self|] eqn:E.
  - split; try (unfold put_boid; rewrite E; reflexivity).
    + rewrite (flocks_put_boid _ _ _ _ _ E). apply length_insert.
    + intros k f Hf. destruct (decide (k = fi)) as [->|Hk].
      * rewrite (lookup_put_boid_eq _ _ _ _ _ E).
        assert (f = self) as -> by congruence.
        eexists; split; [reflexivity|]. split; [reflexivity|].
        cbn. apply length_insert.
      * rewrite lookup_put_boid_ne by assumption. eauto.
    + intros k j Hne. now apply get_put_boid_ne.
  - replace (put_boid w fi bi b) with w; [apply only_boid_changed_refl|].
    unfold put_boid. now rewrite E.
Qed.

Lemma with_boid_found {A} w fi bi (dflt : A) k self boid :
  flocks w !! fi = Some self -> boids self !! bi = Some boid ->
  with_boid w fi bi dflt k = k self boid.
Proof. intros Hf Hb. unfold with_boid. now rewrite Hf, Hb. Qed.

Lemma with_boid_missing {A} w fi bi (dflt : A) k :
  get_boid w fi bi = None -> with_boid w fi bi dflt k = dflt.
Proof.
  unfold get_boid, with_boid. destruct (flocks w !! fi); [|reflexivity].
  now intros ->.
Qed.

Lemma with_boid_frame w fi bi (k : Flock -> Boid -> Simulation) :
  (forall self boid, only_boid_changed fi bi w (k self boid)) ->
  only_boid_changed fi bi w (with_boid w fi bi w k).
Proof.
  intros Hk. unfold with_boid.
  destruct (flocks w !! fi); [|apply only_boid_changed_refl].
  destruct (_ !! bi); [apply Hk|apply only_boid_changed_refl].
Qed.

Lemma with_boid_result_frame w fi bi (k : Flock -> Boid -> result Simulation) w' :
  (forall self boid, k self boid = Ok w' -> only_boid_changed fi bi w w') ->
  with_boid w fi bi (Ok w) k = Ok w' -> only_boid_changed fi bi w w'.
Proof.
  intros Hk. unfold with_boid.
  destruct (flocks w !! fi);
    [|intros [= <-]; apply only_boid_changed_refl].
  destruct (_ !! bi); [apply Hk|intros [= <-]; apply only_boid_changed_refl].
Qed.

Lemma bind_Ok {A B} (m : result A) (k : A -> result B) b :
  bind m k = Ok b -> exists a, m = Ok a /\ k a = Ok b.
Proof. destruct m; cbn; [eauto|discriminate]. Qed.

Lemma rule_alignment_frame w fi bi :
  only_boid_changed fi bi w (rule_alignment w fi bi).
Proof. apply with_boid_frame. intros. apply put_boid_frame. Qed.

Lemma rule_separation_frame w fi bi :
  only_boid_changed fi bi w (rule_separation w fi bi).
Proof. apply with_boid_frame. intros. apply put_boid_frame. Qed.

Lemma move_boid_frame w fi bi :
  only_boid_changed fi bi w (move_boid w fi bi).
Proof. apply with_boid_frame. intros. apply put_boid_frame. Qed.

Lemma rule_cohesion_frame w fi bi w' :
  rule_cohesion w fi bi = Ok w' -> only_boid_changed fi bi w w'.
Proof.
  apply with_boid_result_frame. intros self boid.
  destruct (for_in _ _ _ _) as [[cx cy] n].
  destruct (Nat.eqb n 0); [intros [= <-]; apply only_boid_changed_refl|].
  intros H. apply bind_Ok in H as (qx & _ & H).
  apply bind_Ok in H as (qy & _ & H).
  injection H as <-. apply put_boid_frame.
Qed.

Lemma limit_speed_frame w fi bi w' :
  limit_speed w fi bi = Ok w' -> only_boid_changed fi bi w w'.
Proof.
  apply with_boid_result_frame. intros self boid. cbn.
  destruct (Rgt_dec _ _); [|intros [= <-]; apply only_boid_changed_refl].
  intros H. apply bind_Ok in H as (qx & _ & H).
  apply bind_Ok in H as (qy & _ & H).
  injection H as <-. apply put_boid_frame.
Qed.

Lemma keep_in_bounds_frame w fi bi w' :
  keep_in_bounds w fi bi = Ok w' -> only_boid_changed fi bi w w'.
Proof.
  apply with_boid_result_frame. intros self boid. cbn.
  intros H. apply bind_Ok in H as (v2 & _ & H).
  injection H as <-. apply put_boid_frame.
Qed.

Lemma rule_affinity_loop_frame entries : forall w fi bi w',
  rule_affinity_loop w fi bi entries = Ok w' -> only_boid_changed fi bi w w'.
Proof.
  induction entries as [|[flock_id aff] rest IH]; intros w fi bi w'; cbn.
  - intros [= <-]. apply only_boid_changed_refl.
  - apply with_boid_result_frame. intros self boid H.
    apply bind_Ok in H as (flock & _ & H).
    apply bind_Ok in H as (closest & _ & H).
    apply IH in H.
    eapply only_boid_changed_trans; [|exact H].
    destruct (in_range _ _ _);
      [apply put_boid_frame|apply only_boid_changed_refl].
Qed.

Lemma rule_affinity_frame w fi bi w' :
  rule_affinity w fi bi = Ok w' -> only_boid_changed fi bi w w'.
Proof.
  apply with_boid_result_frame. intros self _.
  apply rule_affinity_loop_frame.
Qed.

Lemma update_boid_only_boid_changed w fi bi w' :
  update_boid w fi bi = Ok w' -> only_boid_changed fi bi w w'.
Proof.
  unfold update_boid. intros H.
  apply bind_Ok in H as (w2 & E2 & H).
  apply bind_Ok in H as (w4 & E4 & H).
  apply bind_Ok in H as (w5 & E5 & H).
  apply bind_Ok in H as (w6 & E6 & H).
  injection H as <-.
  eapply only_boid_changed_trans; [apply rule_alignment_frame|].
  eapply only_boid_changed_trans; [apply (rule_cohesion_frame _ _ _ _ E2)|].
  eapply only_boid_changed_trans; [apply rule_separation_frame|].
  eapply only_boid_changed_trans; [apply (rule_affinity_frame _ _ _ _ E4)|].
  eapply only_boid_changed_trans; [apply (limit_speed_frame _ _ _ _ E5)|].
  eapply only_boid_changed_trans; [apply (keep_in_bounds_frame _ _ _ _ E6)|].
  apply move_boid_frame.
Qed.

(** ** The loops of the rules as sums over the selected neighbours *)

Lemma for_in_ext {A St} (body1 body2 : nat -> A -> St -> St) :
  (forall j a s, body1 j a s = body2 j a s) ->
  forall l j s, for_in body1 j l s = for_in body2 j l s.
Proof.
  intros Hext l. induction l as [|a l IH]; intros j s; cbn; [reflexivity|].
  now rewrite Hext, IH.
Qed.

Lemma unvisited_others_cons bi j a l :
  unvisited_others bi j (a :: l)
  = if decide (bi = j) then unvisited_others bi (S j) l
    else a :: unvisited_others bi (S j) l.
Proof.
  unfold unvisited_others.
  destruct (decide (bi = j)) as [->|Hne].
  - rewrite decide_True by lia. rewrite decide_False by lia.
    now replace (j - j)%nat with O by lia.
  - destruct (decide (j <= bi)%nat).
    + rewrite decide_True by lia.
      replace (bi - j)%nat with (S (bi - S j)) by lia. reflexivity.
    + rewrite decide_False by lia. reflexivity.
Qed.

Lemma is_not_true bi j : bi <> j -> is_not bi j = true.
Proof. intros H. unfold is_not. now apply negb_true_iff, Nat.eqb_neq. Qed.

Lemma is_not_false bi : is_not bi bi = false.
Proof. unfold is_not. now rewrite Nat.eqb_refl. Qed.

Lemma for_in_sum (Q : Boid -> Prop) `{!forall o, Decision (Q o)}
    (f g : Boid -> R) (bi : nat) : forall l j ax ay,
  for_in (fun j other avg =>
            if is_not bi j && bool_decide (Q other)
            then (fst avg + f other, snd avg + g other) else avg)
         j l (ax, ay)
  = (ax + sum_R (map f (filter Q (unvisited_others bi j l))),
     ay + sum_R (map g (filter Q (unvisited_others bi j l)))).
Proof.
  induction l as [|a l IH]; intros j ax ay.
  - replace (unvisited_others bi j []) with (@nil Boid).
    + cbn. f_equal; lra.
    + unfold unvisited_others. destruct (decide _); [|reflexivity].
      now destruct (bi - j)%nat.
  - cbn [for_in]. rewrite unvisited_others_cons.
    destruct (decide (bi = j)) as [->|Hne].
    + rewrite is_not_false. cbn [andb]. apply IH.
    + rewrite is_not_true by assumption. cbn [andb].
      rewrite filter_cons. destruct (decide (Q a)) as [Ha|Ha].
      * rewrite bool_decide_true by assumption. cbn [fst snd].
        rewrite IH. unfold sum_R. cbn. f_equal; lra.
      * rewrite bool_decide_false by assumption. apply IH.
Qed.

Lemma filter_none {A} (P : A -> Prop) `{!forall a, Decision (P a)} (l : list A) :
  (forall a, a ∈ l -> ~ P a) -> filter P l = [].
Proof.
  induction l as [|a l IH]; intros Hall; [reflexivity|].
  rewrite filter_cons_False by (apply Hall; left).
  apply IH. intros a' Hin. apply Hall. now right.
Qed.

Lemma unvisited_others_0 self bi :
  unvisited_others bi 0 (boids self) = others self bi.
Proof.
  unfold unvisited_others, others. rewrite decide_True by lia.
  now rewrite Nat.sub_0_r.
Qed.

Lemma in_range_decide sr boid other :
  in_range sr boid other
  = bool_decide (dist (x boid, y boid) (x other, y other) <= sr).
Proof.
  unfold in_range. destruct (Rle_dec _ _).
  - now rewrite bool_decide_true.
  - now rewrite bool_decide_false.
Qed.

(** What the code of [rule_alignment] adds: the {e sum} of the visible
    neighbours' velocities stands where a mean is announced. *)
Lemma rule_alignment_eq w fi bi self boid :
  flocks w !! fi = Some self -> boids self !! bi = Some boid ->
  rule_alignment w fi bi
  = put_boid w fi bi
      (set_velocity boid
         (vx boid + (sum_R (map vx (visible_neighbors self bi boid)) - vx boid)
                    * alignment self)
         (vy boid + (sum_R (map vy (visible_neighbors self bi boid)) - vy boid)
                    * alignment self)).
Proof.
  intros Hf Hb. unfold rule_alignment.
  rewrite (with_boid_found _ _ _ _ _ _ _ Hf Hb).
  rewrite (for_in_ext _
    (fun j other avg =>
       if is_not bi j
          && bool_decide (dist (x boid, y boid) (x other, y other)
                          <= sight_range self)
       then (fst avg + vx other, snd avg + vy other) else avg)).
  2:{ intros j a s. now rewrite in_range_decide. }
  rewrite for_in_sum, unvisited_others_0. cbn [fst snd].
  unfold visible_neighbors. do 2 f_equal; lra.
Qed.

Lemma rule_separation_eq w fi bi self boid :
  flocks w !! fi = Some self -> boids self !! bi = Some boid ->
  rule_separation w fi bi
  = put_boid w fi bi
      (set_velocity boid (fst (separation_spec self bi boid))
                         (snd (separation_spec self bi boid))).
Proof.
  intros Hf Hb. unfold rule_separation.
  rewrite (with_boid_found _ _ _ _ _ _ _ Hf Hb).
  rewrite (for_in_ext _
    (fun j other v =>
       if is_not bi j
          && bool_decide (dist (x boid, y boid) (x other, y other)
                          < min_separation self)
       then (fst v + (x boid - x other), snd v + (y boid - y other)) else v)).
  2:{ intros j a s. destruct (is_not bi j); cbn [andb]; [|reflexivity].
      destruct (Rlt_dec _ _).
      - now rewrite bool_decide_true.
      - now rewrite bool_decide_false. }
  rewrite for_in_sum, unvisited_others_0. cbn [fst snd].
  unfold separation_spec, crowding_neighbors. cbn [fst snd].
  do 2 f_equal; lra.
Qed.

(** ** What each step leaves in the boid *)

Lemma set_velocity_same boid : set_velocity boid (vx boid) (vy boid) = boid.
Proof. now destruct boid. Qed.

Lemma put_boid_same w fi bi self boid :
  flocks w !! fi = Some self -> boids self !! bi = Some boid ->
  put_boid w fi bi boid = w.
Proof.
  intros Hf Hb. unfold put_boid. rewrite Hf.
  rewrite (list_insert_id _ _ _ Hb).
  replace (set_boids self (boids self)) with self by now destruct self.
  rewrite (list_insert_id _ _ _ Hf). now destruct w.
Qed.

Lemma put_boid_put_boid w fi bi b1 b2 :
  put_boid (put_boid w fi bi b1) fi bi b2 = put_boid w fi bi b2.
Proof.
  destruct (flocks w !! fi) as [self|] eqn:Hf.
  - unfold put_boid at 1. rewrite (lookup_put_boid_eq _ _ _ _ _ Hf).
    rewrite (flocks_put_boid _ _ _ _ _ Hf).
    unfold put_boid. rewrite Hf. unfold set_flocks, set_boids. cbn.
    now rewrite !list_insert_insert_eq.
  - unfold put_boid. now rewrite Hf, Hf.
Qed.

Lemma boid_after_put w fi bi self boid b' :
  flocks w !! fi = Some self -> boids self !! bi = Some boid ->
  boids (set_boids self (<[bi := b']> (boids self))) !! bi = Some b'.
Proof.
  intros _ Hb. cbn. apply list_lookup_insert_eq.
  now apply lookup_lt_Some in Hb.
Qed.

Lemma py_div_nonzero a b : b <> 0 -> py_div a b = Ok (a / b).
Proof. intros H. unfold py_div. now destruct (Req_dec_T b 0). Qed.

Lemma py_div_zero a : py_div a 0 = Raise ZeroDivisionError.
Proof. unfold py_div. now destruct (Req_dec_T 0 0). Qed.

Lemma rule_alignment_zero w fi bi self :
  flocks w !! fi = Some self -> alignment self = 0 ->
  rule_alignment w fi bi = w.
Proof.
  intros Hf H0. destruct (boids self !! bi) as [boid|] eqn:Hb.
  - rewrite (rule_alignment_eq _ _ _ _ _ Hf Hb), H0, !Rmult_0_r, !Rplus_0_r.
    rewrite set_velocity_same. now apply (put_boid_same _ _ _ self).
  - apply with_boid_missing. unfold get_boid. now rewrite Hf.
Qed.

Lemma rule_cohesion_returns w fi bi : returns (rule_cohesion w fi bi).
Proof.
  unfold rule_cohesion, with_boid.
  destruct (flocks w !! fi) as [self|]; [|now eexists].
  destruct (_ !! bi) as [boid|]; [|now eexists].
  destruct (for_in _ _ _ _) as [[cx cy] n].
  destruct n as [|n]; [now eexists|]. cbn [Nat.eqb].
  rewrite !py_div_nonzero by (apply not_0_INR; lia). now eexists.
Qed.

Lemma rule_cohesion_zero w fi bi self :
  flocks w !! fi = Some self -> cohesion self = 0 ->
  rule_cohesion w fi bi = Ok w.
Proof.
  intros Hf H0. destruct (boids self !! bi) as [boid|] eqn:Hb.
  - unfold rule_cohesion. rewrite (with_boid_found _ _ _ _ _ _ _ Hf Hb).
    destruct (for_in _ _ _ _) as [[cx cy] n].
    destruct n as [|n]; [reflexivity|]. cbn [Nat.eqb].
    rewrite !py_div_nonzero by (apply not_0_INR; lia). cbn [bind].
    rewrite H0, !Rmult_0_r, !Rplus_0_r, set_velocity_same.
    now rewrite (put_boid_same _ _ _ self).
  - apply with_boid_missing. unfold get_boid. now rewrite Hf.
Qed.

Lemma rule_affinity_nil w fi bi self :
  flocks w !! fi = Some self -> affinity self = [] ->
  rule_affinity w fi bi = Ok w.
Proof.
  intros Hf H0. unfold rule_affinity, with_boid. rewrite Hf.
  destruct (_ !! bi); [|reflexivity]. now rewrite H0.
Qed.

Lemma limit_speed_eq w fi bi self boid :
  flocks w !! fi = Some self -> boids self !! bi = Some boid ->
  0 <= max_speed self ->
  limit_speed w fi bi = Ok (put_boid w fi bi (clamp_velocity self boid)).
Proof.
  intros Hf Hb Hm. unfold limit_speed, clamp_velocity.
  rewrite (with_boid_found _ _ _ _ _ _ _ Hf Hb). cbn zeta.
  destruct (Rgt_dec _ _) as [Hgt|Hle].
  - rewrite !py_div_nonzero by lra. reflexivity.
  - now rewrite (put_boid_same _ _ _ self).
Qed.

Lemma limit_speed_Ok w fi bi self boid w' :
  flocks w !! fi = Some self -> boids self !! bi = Some boid ->
  limit_speed w fi bi = Ok w' ->
  w' = put_boid w fi bi (clamp_velocity self boid).
Proof.
  intros Hf Hb. unfold limit_speed, clamp_velocity.
  rewrite (with_boid_found _ _ _ _ _ _ _ Hf Hb). cbn zeta.
  destruct (Rgt_dec _ _) as [Hgt|Hle].
  - unfold py_div. destruct (Req_dec_T _ _); [discriminate|].
    cbn [bind]. now intros [= <-].
  - intros [= <-]. now rewrite (put_boid_same _ _ _ self).
Qed.

Lemma limit_speed_slow w fi bi self boid :
  flocks w !! fi = Some self -> boids self !! bi = Some boid ->
  hypot (vx boid) (vy boid) <= max_speed self ->
  limit_speed w fi bi = Ok w.
Proof.
  intros Hf Hb Hle. unfold limit_speed.
  rewrite (with_boid_found _ _ _ _ _ _ _ Hf Hb). cbn zeta.
  destruct (Rgt_dec _ _); [lra|reflexivity].
Qed.

Lemma clamp_velocity_bound self boid :
  0 <= max_speed self ->
  hypot (vx (clamp_velocity self boid)) (vy (clamp_velocity self boid))
  <= max_speed self.
Proof.
  intros Hm. unfold clamp_velocity. cbn zeta.
  destruct (Rgt_dec _ _) as [Hgt|Hle]; [|lra]. cbn [vx vy set_velocity].
  set (speed := hypot (vx boid) (vy boid)) in *.
  replace (vx boid / speed * max_speed self)
    with (vx boid * (max_speed self / speed)) by (field; lra).
  replace (vy boid / speed * max_speed self)
    with (vy boid * (max_speed self / speed)) by (field; lra).
  rewrite hypot_scale by (apply div_nonneg; lra).
  fold speed. right. field. lra.
Qed.

Lemma _set_magnitude_eq v magnitude :
  hypot (fst v) (snd v) <> 0 ->
  _set_magnitude v magnitude
  = Ok (fst v * (magnitude / hypot (fst v) (snd v)),
        snd v * (magnitude / hypot (fst v) (snd v))).
Proof.
  intros Hne. destruct v as [a b]. unfold _set_magnitude.
  rewrite hypot_pow2. cbn [fst snd] in *.
  destruct (Req_dec_T _ _); [contradiction|].
  now rewrite py_div_nonzero.
Qed.

Lemma keep_in_bounds_eq w fi bi self boid :
  flocks w !! fi = Some self -> boids self !! bi = Some boid ->
  keep_in_bounds w fi bi = Ok (put_boid w fi bi (steer_inside w self boid)).
Proof.
  intros Hf Hb. unfold keep_in_bounds, steer_inside.
  rewrite (with_boid_found _ _ _ _ _ _ _ Hf Hb). cbn zeta.
  destruct (Rgt_dec _ _) as [Hgt|Hle]; [|reflexivity].
  rewrite _set_magnitude_eq; [reflexivity|].
  pose proof (hypot_nonneg (vx boid) (vy boid)). lra.
Qed.

Lemma steer_inside_bound w self boid :
  hypot (vx (steer_inside w self boid)) (vy (steer_inside w self boid))
  <= hypot (vx boid) (vy boid).
Proof.
  unfold steer_inside. cbn zeta.
  pose proof (hypot_nonneg (vx boid) (vy boid)) as H0.
  destruct (Rgt_dec _ _) as [Hgt|Hle]; cbn [vx vy set_velocity]; [|lra].
  rewrite hypot_scale by (apply div_nonneg; lra).
  right. field. lra.
Qed.

Lemma move_boid_eq w fi bi self boid :
  flocks w !! fi = Some self -> boids self !! bi = Some boid ->
  move_boid w fi bi = put_boid w fi bi (update_position (tracer_len self) boid).
Proof.
  intros Hf Hb. unfold move_boid.
  now rewrite (with_boid_found _ _ _ _ _ _ _ Hf Hb).
Qed.

(** ** The rules write the velocity of the boid and nothing else *)

Lemma velocity_written_refl w fi bi self boid :
  flocks w !! fi = Some self -> boids self !! bi = Some boid ->
  velocity_written fi bi boid w w.
Proof.
  intros Hf Hb. exists (vx boid), (vy boid).
  now rewrite set_velocity_same, (put_boid_same _ _ _ self).
Qed.

Lemma velocity_written_put w fi bi boid a b :
  velocity_written fi bi boid w (put_boid w fi bi (set_velocity boid a b)).
Proof. now exists a, b. Qed.

Lemma velocity_written_trans w fi bi self boid w1 w2 :
  flocks w !! fi = Some self -> boids self !! bi = Some boid ->
  velocity_written fi bi boid w w1 ->
  (forall self1 boid1,
     flocks w1 !! fi = Some self1 -> boids self1 !! bi = Some boid1 ->
     velocity_written fi bi boid1 w1 w2) ->
  velocity_written fi bi boid w w2.
Proof.
  intros Hf Hb (a & b & ->) Hstep.
  destruct (Hstep _ _ (lookup_put_boid_eq _ _ _ _ _ Hf)
              (boid_after_put _ _ _ _ _ _ Hf Hb)) as (c & d & ->).
  exists c, d. now rewrite put_boid_put_boid.
Qed.

Lemma rule_alignment_velocity w fi bi self boid :
  flocks w !! fi = Some self -> boids self !! bi = Some boid ->
  velocity_written fi bi boid w (rule_alignment w fi bi).
Proof.
  intros Hf Hb. rewrite (rule_alignment_eq _ _ _ _ _ Hf Hb).
  apply velocity_written_put.
Qed.

Lemma rule_separation_velocity w fi bi self boid :
  flocks w !! fi = Some self -> boids self !! bi = Some boid ->
  velocity_written fi bi boid w (rule_separation w fi bi).
Proof.
  intros Hf Hb. rewrite (rule_separation_eq _ _ _ _ _ Hf Hb).
  apply velocity_written_put.
Qed.

Lemma rule_cohesion_velocity w fi bi self boid w' :
  flocks w !! fi = Some self -> boids self !! bi = Some boid ->
  rule_cohesion w fi bi = Ok w' -> velocity_written fi bi boid w w'.
Proof.
  intros Hf Hb. unfold rule_cohesion.
  rewrite (with_boid_found _ _ _ _ _ _ _ Hf Hb).
  destruct (for_in _ _ _ _) as [[cx cy] n].
  destruct (Nat.eqb n 0).
  - intros [= <-]. now apply (velocity_written_refl _ _ _ self).
  - intros H. apply bind_Ok in H as (qx & _ & H).
    apply bind_Ok in H as (qy & _ & H).
    injection H as <-. apply velocity_written_put.
Qed.

Lemma rule_affinity_loop_velocity entries : forall w fi bi self boid w',
  flocks w !! fi = Some self -> boids self !! bi = Some boid ->
  rule_affinity_loop w fi bi entries = Ok w' ->
  velocity_written fi bi boid w w'.
Proof.
  induction entries as [|[flock_id aff] rest IH];
    intros w fi bi self boid w' Hf Hb; cbn [rule_affinity_loop].
  - intros [= <-]. now apply (velocity_written_refl _ _ _ self).
  - rewrite (with_boid_found _ _ _ _ _ _ _ Hf Hb). intros H.
    apply bind_Ok in H as (flock & _ & H).
    apply bind_Ok in H as (closest & _ & H).
    eapply (velocity_written_trans _ _ _ _ _ _ _ Hf Hb).
    2:{ intros self1 boid1 Hf1 Hb1. exact (IH _ _ _ _ _ _ Hf1 Hb1 H). }
    destruct (in_range _ _ _).
    + apply velocity_written_put.
    + now apply (velocity_written_refl _ _ _ self).
Qed.

Lemma rule_affinity_velocity w fi bi self boid w' :
  flocks w !! fi = Some self -> boids self !! bi = Some boid ->
  rule_affinity w fi bi = Ok w' -> velocity_written fi bi boid w w'.
Proof.
  intros Hf Hb. unfold rule_affinity.
  rewrite (with_boid_found _ _ _ _ _ _ _ Hf Hb).
  now apply rule_affinity_loop_velocity with (self := self).
Qed.

Lemma width_put_boid w fi bi b : width (put_boid w fi bi b) = width w.
Proof. unfold put_boid. now destruct (flocks w !! fi). Qed.

Lemma height_put_boid w fi bi b : height (put_boid w fi bi b) = height w.
Proof. unfold put_boid. now destruct (flocks w !! fi). Qed.

Lemma steer_inside_put_boid w fi bi b self l boid :
  steer_inside (put_boid w fi bi b) (set_boids self l) boid
  = steer_inside w self boid.
Proof.
  unfold steer_inside, corrected_velocity, absolute_coords.
  now rewrite width_put_boid, height_put_boid.
Qed.

Lemma clamp_velocity_set_boids self l boid :
  clamp_velocity (set_boids self l) boid = clamp_velocity self boid.
Proof. reflexivity. Qed.

(** [update_boid], when it returns, has replaced the boid by the one that
    [limit_speed], [keep_in_bounds] and [update_position] make of the boid
    with the velocity that the four rules left. *)
Lemma update_boid_eq w fi bi self boid w' :
  flocks w !! fi = Some self -> boids self !! bi = Some boid ->
  update_boid w fi bi = Ok w' ->
  exists vx4 vy4,
    w' = put_boid w fi bi
           (update_position (tracer_len self)
              (steer_inside w self
                 (clamp_velocity self (set_velocity boid vx4 vy4)))).
Proof.
  intros Hf Hb. unfold update_boid. intros H.
  apply bind_Ok in H as (w2 & E2 & H).
  apply bind_Ok in H as (w4 & E4 & H).
  apply bind_Ok in H as (w5 & E5 & H).
  apply bind_Ok in H as (w6 & E6 & H).
  injection H as <-.
  assert (velocity_written fi bi boid w w4) as (vx4 & vy4 & ->).
  { eapply (velocity_written_trans _ _ _ _ _ _ _ Hf Hb);
      [now apply rule_alignment_velocity with (self := self)|].
    intros self1 boid1 Hf1 Hb1.
    eapply (velocity_written_trans _ _ _ _ _ _ _ Hf1 Hb1);
      [now apply rule_cohesion_velocity with (self := self1); eauto|].
    intros self2 boid2 Hf2 Hb2.
    eapply (velocity_written_trans _ _ _ _ _ _ _ Hf2 Hb2);
      [now apply rule_separation_velocity with (self := self2)|].
    intros self3 boid3 Hf3 Hb3.
    now apply rule_affinity_velocity with (self := self3). }
  exists vx4, vy4.
  set (b4 := set_velocity boid vx4 vy4) in *.
  pose proof (lookup_put_boid_eq w fi bi b4 self Hf) as Hf4.
  pose proof (boid_after_put w fi bi self boid b4 Hf Hb) as Hb4.
  apply (limit_speed_Ok _ _ _ _ _ _ Hf4 Hb4) in E5. subst w5.
  rewrite put_boid_put_boid in E6.
  set (b5 := clamp_velocity _ b4) in *.
  pose proof (lookup_put_boid_eq w fi bi b5 self Hf) as Hf5.
  pose proof (boid_after_put w fi bi self boid b5 Hf Hb) as Hb5.
  rewrite (keep_in_bounds_eq _ _ _ _ _ Hf5 Hb5) in E6. injection E6 as <-.
  rewrite put_boid_put_boid, steer_inside_put_boid.
  set (b6 := steer_inside _ _ b5) in *.
  pose proof (lookup_put_boid_eq w fi bi b6 self Hf) as Hf6.
  pose proof (boid_after_put w fi bi self boid b6 Hf Hb) as Hb6.
  rewrite (move_boid_eq _ _ _ _ _ Hf6 Hb6), put_boid_put_boid.
  reflexivity.
Qed.

(** ** Looking flocks up *)

Lemma get_flock_Ok w i flock :
  get_flock w i = Ok flock <->
  exists k, flocks w !! k = Some flock /\ id flock = Some i /\
            forall j other, flocks w !! j = Some other -> (j < k)%nat ->
                            id other <> Some i.
Proof.
  unfold get_flock. split.
  - destruct (list_find _ _) as [[k f]|] eqn:E; [|discriminate].
    intros [= <-]. apply list_find_Some in E. now exists k.
  - intros (k & Hk & Hid & Hfirst).
    assert (list_find (fun flock => id flock = Some i) (flocks w)
            = Some (k, flock)) as -> by now apply list_find_Some.
    reflexivity.
Qed.

Lemma get_flock_Raise w i e :
  get_flock w i = Raise e <->
  e = KeyError (no_flock_message i) /\
  Forall (fun flock => id flock <> Some i) (flocks w).
Proof.
  unfold get_flock. split.
  - destruct (list_find _ _) as [[k f]|] eqn:E; [discriminate|].
    intros [= <-]. apply list_find_None in E. now split.
  - intros [-> Hall].
    assert (list_find (fun flock => id flock = Some i) (flocks w) = None)
      as -> by now apply list_find_None.
    reflexivity.
Qed.

Lemma get_flock_put_boid_Raise w fi bi b i e :
  get_flock w i = Raise e -> get_flock (put_boid w fi bi b) i = Raise e.
Proof.
  intros [-> Hall]%get_flock_Raise. apply get_flock_Raise. split; [reflexivity|].
  destruct (flocks w !! fi) as [self|] eqn:Hf.
  - rewrite (flocks_put_boid _ _ _ _ _ Hf). apply Forall_insert; [assumption|].
    cbn. eapply Forall_lookup_1 in Hall; eauto.
  - unfold put_boid. now rewrite Hf.
Qed.

Lemma get_flock_put_boid_Ok w fi bi b i flock :
  get_flock w i = Ok flock ->
  exists flock', get_flock (put_boid w fi bi b) i = Ok flock' /\
                 length (boids flock') = length (boids flock).
Proof.
  intros (k & Hk & Hid & Hfirst)%get_flock_Ok.
  destruct (flocks w !! fi) as [self|] eqn:Hf.
  2:{ exists flock. split; [|reflexivity]. unfold put_boid. rewrite Hf.
      apply get_flock_Ok. now exists k. }
  destruct (decide (k = fi)) as [->|Hne].
  - assert (flock = self) as -> by congruence.
    exists (set_boids self (<[bi := b]> (boids self))). split.
    + apply get_flock_Ok. exists fi. split; [now apply lookup_put_boid_eq|].
      split; [assumption|]. intros j other Hj Hlt.
      rewrite lookup_put_boid_ne in Hj by lia. eauto.
    + cbn. apply length_insert.
  - exists flock. split; [|reflexivity].
    apply get_flock_Ok. exists k.
    split; [now rewrite lookup_put_boid_ne|]. split; [assumption|].
    intros j other Hj Hlt. destruct (decide (j = fi)) as [->|Hj'].
    + rewrite (lookup_put_boid_eq _ _ _ _ _ Hf) in Hj. injection Hj as <-.
      cbn. eauto.
    + rewrite lookup_put_boid_ne in Hj by assumption. eauto.
Qed.

Lemma resolvable_put_boid w fi bi b entries :
  resolvable w entries -> resolvable (put_boid w fi bi b) entries.
Proof.
  unfold resolvable. intros Hres. eapply Forall_impl; [exact Hres|].
  intros entry (flock & Hg & Hne).
  destruct (get_flock_put_boid_Ok _ fi bi b _ _ Hg) as (flock' & Hg' & Hlen).
  exists flock'. split; [assumption|].
  destruct (boids flock'); [|discriminate].
  destruct (boids flock); [contradiction|discriminate].
Qed.

Lemma py_min_returns {A} (key : A -> R) l : l <> [] -> returns (py_min key l).
Proof. destruct l; [contradiction|]. now eexists. Qed.

Lemma rule_affinity_loop_returns entries : forall w fi bi,
  resolvable w entries -> returns (rule_affinity_loop w fi bi entries).
Proof.
  induction entries as [|[flock_id aff] rest IH]; intros w fi bi Hres;
    cbn [rule_affinity_loop]; [now eexists|].
  unfold with_boid. destruct (flocks w !! fi) as [self|]; [|now eexists].
  destruct (_ !! bi) as [boid|]; [|now eexists].
  apply Forall_cons in Hres as [(flock & Hg & Hne) Hres]. cbn [fst] in Hg.
  rewrite Hg. cbn [bind].
  destruct (py_min_returns
              (fun other => dist (x boid, y boid) (x other, y other))
              _ Hne) as (closest & ->).
  cbn [bind]. apply IH.
  destruct (in_range _ _ _); [now apply resolvable_put_boid|assumption].
Qed.

Lemma rule_affinity_returns w fi bi self :
  flocks w !! fi = Some self -> resolvable w (affinity self) ->
  returns (rule_affinity w fi bi).
Proof.
  intros Hf Hres. unfold rule_affinity, with_boid. rewrite Hf.
  destruct (_ !! bi); [|now eexists].
  now apply rule_affinity_loop_returns.
Qed.

(** [update_boid] returns whenever the affinity targets resolve to flocks
    that have a boid and [max_speed] is not negative. *)
Lemma update_boid_returns w fi bi self boid :
  flocks w !! fi = Some self -> boids self !! bi = Some boid ->
  resolvable w (affinity self) -> 0 <= max_speed self ->
  returns (update_boid w fi bi).
Proof.
  intros Hf Hb Hres Hm. unfold update_boid.
  destruct (rule_alignment_velocity _ _ _ _ _ Hf Hb) as (a1 & b1 & E1).
  rewrite E1.
  pose proof (lookup_put_boid_eq w fi bi (set_velocity boid a1 b1) self Hf)
    as Hf1.
  pose proof (boid_after_put w fi bi self boid (set_velocity boid a1 b1) Hf Hb)
    as Hb1.
  destruct (rule_cohesion_returns (put_boid w fi bi (set_velocity boid a1 b1))
              fi bi) as (w2 & E2).
  rewrite E2. cbn [bind].
  destruct (rule_cohesion_velocity _ _ _ _ _ _ Hf1 Hb1 E2) as (a2 & b2 & ->).
  rewrite put_boid_put_boid. clear E2 E1 Hf1 Hb1.
  set (boid2 := set_velocity (set_velocity boid a1 b1) a2 b2) in *.
  pose proof (lookup_put_boid_eq w fi bi boid2 self Hf) as Hf2.
  pose proof (boid_after_put w fi bi self boid boid2 Hf Hb) as Hb2.
  destruct (rule_separation_velocity _ _ _ _ _ Hf2 Hb2) as (a3 & b3 & E3).
  rewrite E3, put_boid_put_boid. clear E3 Hf2 Hb2.
  set (boid3 := set_velocity boid2 a3 b3) in *.
  pose proof (lookup_put_boid_eq w fi bi boid3 self Hf) as Hf3.
  pose proof (boid_after_put w fi bi self boid boid3 Hf Hb) as Hb3.
  destruct (rule_affinity_returns _ fi bi _ Hf3) as (w4 & E4).
  { cbn. now apply resolvable_put_boid. }
  rewrite E4. cbn [bind].
  destruct (rule_affinity_velocity _ _ _ _ _ _ Hf3 Hb3 E4) as (a4 & b4 & ->).
  rewrite put_boid_put_boid. clear E4 Hf3 Hb3.
  set (boid4 := set_velocity boid3 a4 b4) in *.
  pose proof (lookup_put_boid_eq w fi bi boid4 self Hf) as Hf4.
  pose proof (boid_after_put w fi bi self boid boid4 Hf Hb) as Hb4.
  rewrite (limit_speed_eq _ _ _ _ _ Hf4 Hb4 Hm). cbn [bind].
  rewrite put_boid_put_boid.
  set (boid5 := clamp_velocity _ boid4) in *.
  pose proof (lookup_put_boid_eq w fi bi boid5 self Hf) as Hf5.
  pose proof (boid_after_put w fi bi self boid boid5 Hf Hb) as Hb5.
  rewrite (keep_in_bounds_eq _ _ _ _ _ Hf5 Hb5). cbn [bind].
  now eexists.
Qed.

Lemma update_boid_missing w fi bi :
  get_boid w fi bi = None -> update_boid w fi bi = Ok w.
Proof.
  intros Hnone. unfold update_boid.
  unfold rule_alignment. rewrite (with_boid_missing _ _ _ _ _ Hnone).
  unfold rule_cohesion. rewrite (with_boid_missing _ _ _ _ _ Hnone).
  cbn [bind].
  unfold rule_separation. rewrite (with_boid_missing _ _ _ _ _ Hnone).
  unfold rule_affinity. rewrite (with_boid_missing _ _ _ _ _ Hnone).
  cbn [bind].
  unfold limit_speed. rewrite (with_boid_missing _ _ _ _ _ Hnone).
  cbn [bind].
  unfold keep_in_bounds. rewrite (with_boid_missing _ _ _ _ _ Hnone).
  cbn [bind].
  unfold move_boid. now rewrite (with_boid_missing _ _ _ _ _ Hnone).
Qed.

(** ** Inside the window nothing is corrected *)

Lemma corrected_velocity_inside w self boid :
  inside w boid ->
  corrected_velocity w self (x boid, y boid) (vx boid, vy boid)
  = (vx boid, vy boid).
Proof.
  intros [Hx Hy]. unfold corrected_velocity, absolute_coords. cbn [fst snd].
  destruct (Rlt_dec _ 0); [lra|]. destruct (Rgt_dec _ _); [lra|].
  destruct (Rlt_dec _ 0); [lra|]. destruct (Rgt_dec _ _); [lra|].
  reflexivity.
Qed.

Lemma keep_in_bounds_inside w fi bi self boid :
  flocks w !! fi = Some self -> boids self !! bi = Some boid ->
  inside w boid -> keep_in_bounds w fi bi = Ok w.
Proof.
  intros Hf Hb Hin. rewrite (keep_in_bounds_eq _ _ _ _ _ Hf Hb).
  unfold steer_inside. rewrite (corrected_velocity_inside _ _ _ Hin).
  cbn [fst snd]. destruct (Rgt_dec _ _); [lra|].
  now rewrite set_velocity_same, (put_boid_same _ _ _ self).
Qed.

(** A boid of a flock without alignment, cohesion and affinity, slow enough
    and inside the window, moves by the separation rule alone. *)
Lemma update_boid_separation_only w fi bi self boid :
  flocks w !! fi = Some self -> boids self !! bi = Some boid ->
  alignment self = 0 -> cohesion self = 0 -> affinity self = [] ->
  hypot (fst (separation_spec self bi boid)) (snd (separation_spec self bi boid))
  <= max_speed self ->
  inside w boid ->
  update_boid w fi bi
  = Ok (put_boid w fi bi
          (update_position (tracer_len self)
             (set_velocity boid (fst (separation_spec self bi boid))
                                (snd (separation_spec self bi boid))))).
Proof.
  intros Hf Hb Hal Hco Haf Hslow Hin. unfold update_boid.
  rewrite (rule_alignment_zero _ _ _ _ Hf Hal).
  rewrite (rule_cohesion_zero _ _ _ _ Hf Hco). cbn [bind].
  rewrite (rule_separation_eq _ _ _ _ _ Hf Hb).
  set (b3 := set_velocity boid _ _).
  pose proof (lookup_put_boid_eq w fi bi b3 self Hf) as Hf3.
  pose proof (boid_after_put w fi bi self boid b3 Hf Hb) as Hb3.
  rewrite (rule_affinity_nil _ _ _ _ Hf3 Haf). cbn [bind].
  rewrite (limit_speed_slow _ _ _ _ _ Hf3 Hb3 Hslow). cbn [bind].
  rewrite (keep_in_bounds_inside _ _ _ _ _ Hf3 Hb3).
  2:{ unfold inside. now rewrite width_put_boid, height_put_boid. }
  cbn [bind]. rewrite (move_boid_eq _ _ _ _ _ Hf3 Hb3).
  now rewrite put_boid_put_boid.
Qed.

(** ** The two-agent example of the specification *)

Lemma tick_single_flock w f :
  flocks w = [f] ->
  tick w = do w' <- update_boids w 0 (seq 0 (length (boids f))); Ok w'.
Proof.
  intros Hw. unfold tick. rewrite Hw. cbn [length seq update_flocks].
  unfold flock_size. rewrite Hw. cbn [lookup list_lookup].
  now destruct (update_boids _ _ _).
Qed.

Section two_agents.

Variables (w : Simulation) (f : Flock) (a b : Boid).
Hypothesis setup : two_agent_example w f a b.
Hypothesis no_affinity : affinity f = [].
Hypothesis wide : (6 <= width w)%Z.
Hypothesis tall : (0 <= height w)%Z.

Lemma two_agents_first :
  update_boid w 0 0 = Ok (put_boid w 0 0 (first_moved f a)).
Proof.
  destruct setup as (Hw & Hb & Hal & Hco & Hse & Hmin & Hmax
                     & [= Hxa Hya] & [= Hxb Hyb] & [= Hvxa Hvya] & _).
  assert (flocks w !! 0%nat = Some f) as Hf by now rewrite Hw.
  assert (boids f !! 0%nat = Some a) as Ha by now rewrite Hb.
  assert (separation_spec f 0 a = (-3, 0)) as Hsep.
  { unfold separation_spec, crowding_neighbors, others. rewrite Hb.
    cbn [delete list_delete]. rewrite filter_cons_True, filter_nil.
    - unfold sum_R. cbn [map foldr fst snd].
      rewrite Hxa, Hya, Hxb, Hyb, Hvxa, Hvya, Hse. f_equal; lra.
    - rewrite dist_hypot, Hmin. cbn [fst snd].
      apply hypot_lt_iff; [lra|]. rewrite Hxa, Hya, Hxb, Hyb. lra. }
  rewrite (update_boid_separation_only _ _ _ _ _ Hf Ha Hal Hco no_affinity).
  - now rewrite Hsep.
  - rewrite Hsep, Hmax. cbn [fst snd]. apply hypot_le_iff; lra.
  - unfold inside. rewrite Hxa, Hya.
    apply IZR_le in wide, tall. lra.
Qed.

Lemma two_agents_second :
  update_boid (put_boid w 0 0 (first_moved f a)) 0 1
  = Ok (put_boid (put_boid w 0 0 (first_moved f a)) 0 1 (second_moved f b)).
Proof.
  destruct setup as (Hw & Hb & Hal & Hco & Hse & Hmin & Hmax
                     & [= Hxa Hya] & [= Hxb Hyb] & [= Hvxa Hvya]
                     & [= Hvxb Hvyb]).
  assert (flocks w !! 0%nat = Some f) as Hf by now rewrite Hw.
  assert (flocks (put_boid w 0 0 (first_moved f a)) !! 0%nat
          = Some (set_boids f [first_moved f a; b])) as Hf1.
  { rewrite (lookup_put_boid_eq _ _ _ _ _ Hf). now rewrite Hb. }
  assert (boids (set_boids f [first_moved f a; b]) !! 1%nat = Some b) as Hb1
    by reflexivity.
  assert (x (first_moved f a) = -3 /\ y (first_moved f a) = 0) as [Hxa1 Hya1].
  { cbn. rewrite Hxa, Hya. split; lra. }
  assert (separation_spec (set_boids f [first_moved f a; b]) 1 b = (6, 0))
    as Hsep.
  { unfold separation_spec, crowding_neighbors, others.
    cbn [boids set_boids delete list_delete].
    rewrite filter_cons_True, filter_nil.
    - unfold sum_R. cbn [map foldr fst snd separation set_boids].
      rewrite Hxa1, Hya1, Hxb, Hyb, Hvxb, Hvyb, Hse. f_equal; lra.
    - rewrite dist_hypot. cbn [fst snd min_separation set_boids].
      rewrite Hmin.
      apply hypot_lt_iff; [lra|]. rewrite Hxa1, Hya1, Hxb, Hyb. lra. }
  rewrite (update_boid_separation_only _ _ _ _ _ Hf1 Hb1 Hal Hco no_affinity).
  - now rewrite Hsep.
  - rewrite Hsep. cbn [fst snd max_speed set_boids]. rewrite Hmax.
    apply hypot_le_iff; lra.
  - unfold inside. rewrite width_put_boid, height_put_boid, Hxb, Hyb.
    apply IZR_le in wide, tall. lra.
Qed.

(** One tick moves the first agent to (-3,0) and then, seeing it there, the
    second agent to (9,0). *)
Lemma two_agents_tick :
  exists w' a' b',
    tick w = Ok w' /\
    get_boid w' 0 0 = Some a' /\ get_boid w' 0 1 = Some b' /\
    (x a', y a') = (-3, 0) /\ (x b', y b') = (9, 0) /\
    (vx a', vy a') = (-3, 0) /\ (vx b', vy b') = (6, 0).
Proof.
  pose proof two_agents_first as E1. pose proof two_agents_second as E2.
  destruct setup as (Hw & Hb & Hal & Hco & Hse & Hmin & Hmax
                     & [= Hxa Hya] & [= Hxb Hyb] & _).
  assert (is_Some (get_boid w 0 0)) as Hsa.
  { unfold get_boid. rewrite Hw. cbn. rewrite Hb. now eexists. }
  assert (is_Some (get_boid w 0 1)) as Hsb.
  { unfold get_boid. rewrite Hw. cbn. rewrite Hb. now eexists. }
  exists (put_boid (put_boid w 0 0 (first_moved f a)) 0 1 (second_moved f b)),
         (first_moved f a), (second_moved f b).
  split; [|split; [|split]].
  - rewrite (tick_single_flock _ _ Hw), Hb.
    cbn [length seq update_boids]. rewrite E1. cbn [bind].
    rewrite E2. reflexivity.
  - rewrite get_put_boid_ne by congruence. now apply get_put_boid_eq.
  - apply get_put_boid_eq. now rewrite get_put_boid_ne by congruence.
  - cbn. rewrite Hxa, Hya, Hxb, Hyb. repeat split; f_equal; lra.
Qed.

End two_agents.

(** ** Trails *)

Lemma update_position_history n self :
  pos_history (update_position n self)
  = if (n <? Z.of_nat (length (pos_history self ++ [(x self, y self)])))%Z
    then drop 1 (pos_history self ++ [(x self, y self)])
    else pos_history self ++ [(x self, y self)].
Proof. reflexivity. Qed.

Lemma update_position_bounded n self :
  (0 <= n)%Z ->
  (Z.of_nat (length (pos_history self)) <= n)%Z ->
  (Z.of_nat (length (pos_history (update_position n self))) <= n)%Z.
Proof.
  intros Hn Hlen. rewrite update_position_history.
  destruct (Z.ltb_spec n
              (Z.of_nat (length (pos_history self ++ [(x self, y self)]))))
    as [Hlt|Hge].
  - rewrite length_drop, length_app. cbn [length]. lia.
  - exact Hge.
Qed.

Lemma pos_history_steer w self boid :
  pos_history (steer_inside w self boid) = pos_history boid.
Proof. unfold steer_inside. cbn zeta. now destruct (Rgt_dec _ _). Qed.

Lemma pos_history_clamp self boid :
  pos_history (clamp_velocity self boid) = pos_history boid.
Proof. unfold clamp_velocity. cbn zeta. now destruct (Rgt_dec _ _). Qed.

Lemma trail_bounded_put_boid w fi bi self boid boid' :
  flocks w !! fi = Some self -> boids self !! bi = Some boid ->
  ((0 <= tracer_len self)%Z ->
   (Z.of_nat (length (pos_history boid)) <= tracer_len self)%Z ->
   (Z.of_nat (length (pos_history boid')) <= tracer_len self)%Z) ->
  trail_bounded w -> trail_bounded (put_boid w fi bi boid').
Proof.
  intros Hf Hb Hnew Hinv k flock j c Hk Hj Hpos.
  destruct (decide (k = fi)) as [->|Hne].
  - rewrite (lookup_put_boid_eq _ _ _ _ _ Hf) in Hk. injection Hk as <-.
    cbn in *. destruct (decide (j = bi)) as [->|Hnj].
    + rewrite list_lookup_insert_eq in Hj by now apply lookup_lt_Some in Hb.
      injection Hj as <-. apply Hnew; [assumption|]. now apply (Hinv fi self bi).
    + rewrite list_lookup_insert_ne in Hj by congruence.
      now apply (Hinv fi self j).
  - rewrite lookup_put_boid_ne in Hk by assumption. now apply (Hinv k flock j).
Qed.

Lemma update_boid_trail_bounded w fi bi w' :
  trail_bounded w -> update_boid w fi bi = Ok w' -> trail_bounded w'.
Proof.
  intros Hinv Hup. destruct (get_boid w fi bi) as [boid|] eqn:Hg.
  - unfold get_boid in Hg. destruct (flocks w !! fi) as [self|] eqn:Hf;
      [|discriminate].
    destruct (update_boid_eq _ _ _ _ _ _ Hf Hg Hup) as (a & b & ->).
    apply (trail_bounded_put_boid _ _ _ _ _ _ Hf Hg); [|assumption].
    intros Hn Hlen. apply update_position_bounded; [assumption|].
    now rewrite pos_history_steer, pos_history_clamp.
  - rewrite (update_boid_missing _ _ _ Hg) in Hup. now injection Hup as <-.
Qed.

Lemma update_boids_trail_bounded fi bis : forall w w',
  trail_bounded w -> update_boids w fi bis = Ok w' -> trail_bounded w'.
Proof.
  induction bis as [|bi rest IH]; intros w w' Hinv; cbn [update_boids].
  - now intros [= <-].
  - intros H. apply bind_Ok in H as (w1 & E1 & H).
    eapply IH; [|exact H]. eapply update_boid_trail_bounded; eauto.
Qed.

Lemma update_flocks_trail_bounded fis : forall w w',
  trail_bounded w -> update_flocks w fis = Ok w' -> trail_bounded w'.
Proof.
  induction fis as [|fi rest IH]; intros w w' Hinv; cbn [update_flocks].
  - now intros [= <-].
  - intros H. apply bind_Ok in H as (w1 & E1 & H).
    eapply IH; [|exact H]. eapply update_boids_trail_bounded; eauto.
Qed.

Lemma tick_trail_bounded w w' :
  trail_bounded w -> tick w = Ok w' -> trail_bounded w'.
Proof. apply update_flocks_trail_bounded. Qed.

Lemma handle_events_trail_bounded events : forall w w',
  trail_bounded w -> handle_events w events = Some w' -> trail_bounded w'.
Proof.
  induction events as [|[|w1 h1|] rest IH]; intros w w' Hinv;
    cbn [handle_events].
  - now intros [= <-].
  - discriminate.
  - apply IH. exact Hinv.
  - now apply IH.
Qed.

Lemma run_trail_bounded polls : forall w w',
  trail_bounded w -> run w polls = Running w' -> trail_bounded w'.
Proof.
  induction polls as [|events rest IH]; intros w w' Hinv; cbn [run].
  - now intros [= <-].
  - destruct (tick w) as [w1|] eqn:E1; [|discriminate].
    destruct (handle_events w1 events) as [w2|] eqn:E2; [|discriminate].
    apply IH. eapply handle_events_trail_bounded; [|exact E2].
    eapply tick_trail_bounded; eauto.
Qed.

(** ** Construction *)

Lemma create_boids_spec dimensions lo hi rng n : forall k boid,
  boid ∈ create_boids dimensions lo hi rng k n ->
  exists j,
    boid = create_random (0, 0) dimensions lo hi
             (rng j, rng (j + 1)%nat, rng (j + 2)%nat, rng (j + 3)%nat).
Proof.
  induction n as [|n IH]; intros k boid; cbn [create_boids].
  - intros H. inversion H.
  - intros [->|H]%elem_of_cons; [now exists k|]. now apply IH in H.
Qed.

Lemma create_boids_length dimensions lo hi rng n : forall k,
  length (create_boids dimensions lo hi rng k n) = n.
Proof. induction n as [|n IH]; intros k; cbn; [reflexivity|]. now rewrite IH. Qed.

Lemma make_flocks_fresh sim_width sim_height flock_config rng :
  forall k flock boid,
    flock ∈ make_flocks sim_width sim_height flock_config rng k ->
    boid ∈ boids flock -> pos_history boid = [].
Proof.
  induction flock_config as [|conf rest IH]; intros k flock boid;
    cbn [make_flocks].
  - intros H. inversion H.
  - intros [->|H]%elem_of_cons Hb.
    + apply create_boids_spec in Hb as (j & ->). reflexivity.
    + eapply IH; eauto.
Qed.

Lemma Simulation_init_trail_bounded flock_config window_size bg sl rng :
  trail_bounded (Simulation_init flock_config window_size bg sl rng).
Proof.
  intros fi flock bi boid Hf Hb Hpos.
  rewrite (make_flocks_fresh (fst window_size) (snd window_size)
             flock_config rng 0 flock boid).
  - exact Hpos.
  - eapply list_elem_of_lookup_2. exact Hf.
  - eapply list_elem_of_lookup_2. exact Hb.
Qed.

(** ** Affinity entries that do not resolve *)

Lemma get_flock_unknown w i :
  unknown_id w i -> get_flock w i = Raise (KeyError (no_flock_message i)).
Proof.
  intros Hun. apply get_flock_Raise. split; [reflexivity|].
  apply Forall_forall. exact Hun.
Qed.





(** The three rules that run before the affinity rule leave a store that
    differs from the one they found in the velocity of the boid. *)
Lemma before_affinity w fi bi self boid :
  flocks w !! fi = Some self -> boids self !! bi = Some boid ->
  exists a b,
    (do w2 <- rule_cohesion (rule_alignment w fi bi) fi bi;
     Ok (rule_separation w2 fi bi))
    = Ok (put_boid w fi bi (set_velocity boid a b)).
Proof.
  intros Hf Hb.
  destruct (rule_cohesion_returns (rule_alignment w fi bi) fi bi) as (w2 & E2).
  rewrite E2. cbn [bind].
  assert (velocity_written fi bi boid w (rule_separation w2 fi bi))
    as (a & b & ->); [|now exists a, b].
  eapply (velocity_written_trans _ _ _ _ _ _ _ Hf Hb);
    [now apply rule_alignment_velocity with (self := self)|].
  intros self1 boid1 Hf1 Hb1.
  eapply (velocity_written_trans _ _ _ _ _ _ _ Hf1 Hb1);
    [now apply rule_cohesion_velocity with (self := self1); eauto|].
  intros self2 boid2 Hf2 Hb2.
  now apply rule_separation_velocity with (self := self2).
Qed.


Lemma parameters_same f f' : parameters f' = parameters f -> same_parameters f f'.
Proof.
  intros H. unfold same_parameters.
  repeat split;
    [exact (f_equal id H)|exact (f_equal num_boids H)
    |exact (f_equal affinity H)|exact (f_equal alignment H)
    |exact (f_equal separation H)|exact (f_equal cohesion H)
    |exact (f_equal min_separation H)|exact (f_equal max_speed H)
    |exact (f_equal boundary_force H)|exact (f_equal sight_range H)
    |exact (f_equal color H)|exact (f_equal tracer_len H)
    |exact (f_equal tracer_color H)|exact (f_equal tracer_enabled H)].
Qed.

Lemma example_setup :
  two_agent_example example_world example_flock (rest_at 0 0) (rest_at 3 0).
Proof. repeat split. Qed.

Lemma example_first :
  update_boid example_world 0 0
  = Ok (put_boid example_world 0 0
          (first_moved example_flock (rest_at 0 0))).
Proof.
  apply (two_agents_first _ _ _ _ example_setup); [reflexivity| |]; cbn; lia.
Qed.

Lemma example_tick :
  exists w' a' b',
    tick example_world = Ok w' /\
    get_boid w' 0 0 = Some a' /\ get_boid w' 0 1 = Some b' /\
    (x a', y a') = (-3, 0) /\ (x b', y b') = (9, 0) /\
    (vx a', vy a') = (-3, 0) /\ (vx b', vy b') = (6, 0).
Proof.
  apply (two_agents_tick _ _ _ _ example_setup); [reflexivity| |]; cbn; lia.
Qed.


(** ** The tick loop does not fail on a well-configured world *)

Lemma well_configured_put_boid w fi bi b :
  well_configured w -> well_configured (put_boid w fi bi b).
Proof.
  intros Hw k f' Hk. destruct (decide (k = fi)) as [->|Hne].
  - destruct (flocks w !! fi) as [self|] eqn:Hf.
    + rewrite (lookup_put_boid_eq _ _ _ _ _ Hf) in Hk. injection Hk as <-.
      destruct (Hw fi self Hf) as [Hres Hm].
      split; [now apply resolvable_put_boid|exact Hm].
    + unfold put_boid in Hk. rewrite Hf, Hf in Hk. discriminate.
  - rewrite lookup_put_boid_ne in Hk by assumption.
    destruct (Hw k f' Hk) as [Hres Hm].
    split; [now apply resolvable_put_boid|exact Hm].
Qed.

Lemma update_boid_well_configured w fi bi w' :
  well_configured w -> update_boid w fi bi = Ok w' -> well_configured w'.
Proof.
  intros Hw Hup. destruct (get_boid w fi bi) as [boid|] eqn:Hg.
  - unfold get_boid in Hg. destruct (flocks w !! fi) as [self|] eqn:Hf;
      [|discriminate].
    destruct (update_boid_eq _ _ _ _ _ _ Hf Hg Hup) as (a & b & ->).
    now apply well_configured_put_boid.
  - rewrite (update_boid_missing _ _ _ Hg) in Hup. now injection Hup as <-.
Qed.

Lemma update_boid_total w fi bi :
  well_configured w -> returns (update_boid w fi bi).
Proof.
  intros Hw. destruct (get_boid w fi bi) as [boid|] eqn:Hg.
  - unfold get_boid in Hg. destruct (flocks w !! fi) as [self|] eqn:Hf;
      [|discriminate].
    destruct (Hw fi self Hf) as [Hres Hm].
    now apply update_boid_returns with (self := self) (boid := boid).
  - rewrite (update_boid_missing _ _ _ Hg). now eexists.
Qed.

Lemma update_boids_total fi bis : forall w,
  well_configured w ->
  exists w', update_boids w fi bis = Ok w' /\ well_configured w'.
Proof.
  induction bis as [|bi rest IH]; intros w Hw; cbn [update_boids].
  - now exists w.
  - destruct (update_boid_total w fi bi Hw) as (w1 & E1). rewrite E1.
    cbn [bind]. apply IH. eapply update_boid_well_configured; eauto.
Qed.

Lemma update_flocks_total fis : forall w,
  well_configured w ->
  exists w', update_flocks w fis = Ok w' /\ well_configured w'.
Proof.
  induction fis as [|fi rest IH]; intros w Hw; cbn [update_flocks].
  - now exists w.
  - destruct (update_boids_total fi (seq 0 (flock_size w fi)) w Hw)
      as (w1 & E1 & Hw1).
    rewrite E1. cbn [bind]. now apply IH.
Qed.

Lemma tick_total w :
  well_configured w -> exists w', tick w = Ok w' /\ well_configured w'.
Proof. apply update_flocks_total. Qed.

Lemma get_flock_set_size w width' height' i :
  get_flock (set_size w width' height') i = get_flock w i.
Proof. reflexivity. Qed.

Lemma handle_events_well_configured events : forall w w',
  well_configured w -> handle_events w events = Some w' -> well_configured w'.
Proof.
  induction events as [|[|w1 h1|] rest IH]; intros w w' Hw;
    cbn [handle_events].
  - now intros [= <-].
  - discriminate.
  - apply IH. exact Hw.
  - now apply IH.
Qed.

Lemma run_total polls : forall w,
  well_configured w ->
  run w polls = Exited \/
  exists w', run w polls = Running w' /\ well_configured w'.
Proof.
  induction polls as [|events rest IH]; intros w Hw; cbn [run].
  - right. now exists w.
  - destruct (tick_total w Hw) as (w1 & -> & Hw1).
    destruct (handle_events w1 events) as [w2|] eqn:E2; [|now left].
    apply IH. eapply handle_events_well_configured; eauto.
Qed.

Lemma handle_events_no_quit events : forall w,
  QUIT ∉ events -> is_Some (handle_events w events).
Proof.
  induction events as [|[|w1 h1|] rest IH]; intros w Hq; cbn [handle_events].
  - now eexists.
  - exfalso. apply Hq. left.
  - apply IH. intros H. apply Hq. now right.
  - apply IH. intros H. apply Hq. now right.
Qed.

Lemma example_world_well_configured : well_configured example_world.
Proof.
  intros k f Hk. destruct k as [|k]; [|destruct k; discriminate].
  injection Hk as <-. split; [constructor|cbn; lra].
Qed.


(** ** Cohesion, empty flocks and the examples *)

Lemma example_world_trail_bounded : trail_bounded example_world.
Proof.
  intros fi flock bi boid Hf Hb Hpos.
  destruct fi as [|fi]; [|destruct fi; discriminate].
  injection Hf as <-.
  destruct bi as [|[|bi]]; [| |destruct bi; discriminate];
    injection Hb as <-; cbn; lia.
Qed.


Lemma for_in_sum_count (Q : Boid -> Prop) `{!forall o, Decision (Q o)}
    (f g : Boid -> R) (bi : nat) : forall l j cx cy n,
  for_in (fun j other acc =>
            if is_not bi j && bool_decide (Q other)
            then (fst (fst acc) + f other, snd (fst acc) + g other, S (snd acc))
            else acc)
         j l (cx, cy, n)
  = (cx + sum_R (map f (filter Q (unvisited_others bi j l))),
     cy + sum_R (map g (filter Q (unvisited_others bi j l))),
     (n + length (filter Q (unvisited_others bi j l)))%nat).
Proof.
  induction l as [|a l IH]; intros j cx cy n.
  - replace (unvisited_others bi j []) with (@nil Boid).
    + cbn. do 2 f_equal; (lra || lia).
    + unfold unvisited_others. destruct (decide _); [|reflexivity].
      now destruct (bi - j)%nat.
  - cbn [for_in]. rewrite unvisited_others_cons.
    destruct (decide (bi = j)) as [->|Hne].
    + rewrite is_not_false. cbn [andb]. apply IH.
    + rewrite is_not_true by assumption. cbn [andb].
      rewrite filter_cons. destruct (decide (Q a)) as [Ha|Ha].
      * rewrite bool_decide_true by assumption. cbn [fst snd].
        rewrite IH. unfold sum_R. cbn. do 2 f_equal; (lra || lia).
      * rewrite bool_decide_false by assumption. apply IH.
Qed.

(** [rule_cohesion] does nothing without a visible neighbour, and otherwise
    steers toward the mean position of the visible neighbours. *)
Lemma rule_cohesion_eq w fi bi self boid :
  flocks w !! fi = Some self -> boids self !! bi = Some boid ->
  rule_cohesion w fi bi
  = Ok (match visible_neighbors self bi boid with
        | [] => w
        | _ :: _ =>
            put_boid w fi bi
              (set_velocity boid
                 (vx boid + (mean (map x (visible_neighbors self bi boid))
                             - x boid) * cohesion self)
                 (vy boid + (mean (map y (visible_neighbors self bi boid))
                             - y boid) * cohesion self))
        end).
Proof.
  intros Hf Hb. unfold rule_cohesion.
  rewrite (with_boid_found _ _ _ _ _ _ _ Hf Hb).
  rewrite (for_in_ext _
    (fun j other acc =>
       if is_not bi j
          && bool_decide (dist (x boid, y boid) (x other, y other)
                          <= sight_range self)
       then (fst (fst acc) + x other, snd (fst acc) + y other, S (snd acc))
       else acc)).
  2:{ intros j a s. now rewrite in_range_decide. }
  rewrite for_in_sum_count, unvisited_others_0.
  fold (visible_neighbors self bi boid).
  destruct (visible_neighbors self bi boid) as [|n0 ns] eqn:E;
    [reflexivity|].
  cbn [length Nat.add Nat.eqb].
  rewrite !py_div_nonzero by (apply not_0_INR; lia). cbn [bind].
  unfold mean. cbn [map length]. rewrite !length_map, !Rplus_0_l.
  reflexivity.
Qed.

Lemma drawn_flock_boids u :
  boids (drawn_flock u)
  = [create_random (0, 0) (800 / 2, 600 / 2) (-1) 1 (u, u, u, u)].
Proof. reflexivity. Qed.

Lemma hunt_world_affinity_raises :
  rule_affinity hunt_world 0 0 = Raise ValueError.
Proof.
  unfold rule_affinity.
  rewrite (with_boid_found hunt_world 0 0 _ _ hunters (rest_at 0 0)
             eq_refl eq_refl).
  cbn [affinity hunters rule_affinity_loop].
  rewrite (with_boid_found hunt_world 0 0 _ _ hunters (rest_at 0 0)
             eq_refl eq_refl).
  assert (get_flock hunt_world "prey" = Ok no_prey) as ->.
  { apply get_flock_Ok. exists 1%nat. split; [reflexivity|].
    split; [reflexivity|]. intros j other Hj Hlt.
    assert (j = 0%nat) as -> by lia. injection Hj as <-. discriminate. }
  reflexivity.
Qed.

Lemma get_center_empty self :
  boids self = [] -> get_center self = Raise ZeroDivisionError.
Proof. intros H. unfold get_center. rewrite H. cbn. now rewrite py_div_zero. Qed.

Lemma get_center_returns self : boids self <> [] -> returns (get_center self).
Proof.
  intros Hne. unfold get_center.
  rewrite !py_div_nonzero; [now eexists| |];
    apply not_0_INR; destruct (boids self); [contradiction|discriminate
                                            |contradiction|discriminate].
Qed.

Lemma hunter_alone : visible_neighbors hunters 0 (rest_at 0 0) = [].
Proof. reflexivity. Qed.

Lemma fed_world_resolvable : resolvable fed_world (affinity hunters).
Proof.
  repeat constructor. exists prey_flock. split; [|discriminate].
  apply get_flock_Ok. exists 1%nat. split; [reflexivity|].
  split; [reflexivity|]. intros j other Hj Hlt.
  assert (j = 0%nat) as -> by lia. injection Hj as <-. discriminate.
Qed.




(** * The claims *)

(** C1 as stated fails in the example world: after one tick the agent that
    started at (3,0) is not at (6,0). *)
Lemma two_agents_second_not_at_6 :
  two_agent_example example_world example_flock (rest_at 0 0) (rest_at 3 0) /\
  ~ (exists w' a' b',
       tick example_world = Ok w' /\
       get_boid w' 0 0 = Some a' /\ get_boid w' 0 1 = Some b' /\
       (x a', y a') = (-3, 0) /\ (x b', y b') = (6, 0)).
Proof.
  split; [exact example_setup|].
  intros (w' & a' & b' & Ht & _ & Hb & _ & [= Hx _]).
  destruct example_tick as (w2 & a2 & b2 & Ht2 & _ & Hb2 & _ & [= Hx2 _] & _).
  rewrite Ht in Ht2. injection Ht2 as <-.
  rewrite Hb in Hb2. injection Hb2 as <-. lra.
Qed.

(** C1 (as amended).  In the two-agent example (alignment 0, cohesion 0,
    separation 1, min_separation 10, max_speed 100, agents at rest at (0,0)
    and (3,0)), with no affinity entry and a window at least 6 wide, one tick
    leaves the first agent at (-3,0) and the second at (9,0): the second
    agent is updated against the first agent's new position, 6 away. *)
Theorem two_agents_after_one_tick (w : Simulation) (f : Flock) (a b : Boid) :
  two_agent_example w f a b ->
  affinity f = [] -> (6 <= width w)%Z -> (0 <= height w)%Z ->
  exists w' a' b',
    tick w = Ok w' /\
    get_boid w' 0 0 = Some a' /\ get_boid w' 0 1 = Some b' /\
    (x a', y a') = (-3, 0) /\ (x b', y b') = (9, 0).
Proof.
  intros Hsetup Haf Hwide Htall.
  destruct (two_agents_tick _ _ _ _ Hsetup Haf Hwide Htall)
    as (w' & a' & b' & Ht & Ha & Hb & Hpa & Hpb & _).
  now exists w', a', b'.
Qed.

(** The example world of 800 by 600 is such a setting. *)
Lemma two_agents_after_one_tick_witness :
  two_agent_example example_world example_flock (rest_at 0 0) (rest_at 3 0) /\
  affinity example_flock = [] /\
  (6 <= width example_world)%Z /\ (0 <= height example_world)%Z /\
  exists w' a' b',
    tick example_world = Ok w' /\
    get_boid w' 0 0 = Some a' /\ get_boid w' 0 1 = Some b' /\
    (x a', y a') = (-3, 0) /\ (x b', y b') = (9, 0).
Proof.
  assert (6 <= width example_world)%Z as Hw by (cbn; lia).
  assert (0 <= height example_world)%Z as Hh by (cbn; lia).
  split; [exact example_setup|]. split; [reflexivity|].
  split; [exact Hw|]. split; [exact Hh|].
  exact (two_agents_after_one_tick example_world example_flock (rest_at 0 0)
           (rest_at 3 0) example_setup eq_refl Hw Hh).
Defined.

(** C2, evaluated at a failing input.  In [trio_world] the first agent is at
    rest and sees two neighbours that both move with velocity (1,0); the
    velocity that the code leaves is (2,0), the sum of the neighbours'
    velocities, where the rule as specified (with the mean) gives (1,0). *)
Theorem alignment_adds_sum_not_mean :
  (exists boid',
     get_boid (rule_alignment trio_world 0 0) 0 0 = Some boid' /\
     (vx boid', vy boid') = (2, 0)) /\
  alignment_spec aligned_trio 0 (rest_at 0 0) = (1, 0).
Proof.
  assert (visible_neighbors aligned_trio 0 (rest_at 0 0)
          = [ {| x := 1; y := 0; vx := 1; vy := 0; pos_history := [] |};
              {| x := 0; y := 1; vx := 1; vy := 0; pos_history := [] |} ])
    as Hvis.
  { unfold visible_neighbors, others. cbn [boids aligned_trio delete list_delete].
    rewrite filter_cons_True, filter_cons_True, filter_nil; [reflexivity| |];
      rewrite dist_hypot; cbn; apply hypot_le_iff; lra. }
  split.
  - rewrite (rule_alignment_eq trio_world 0 0 aligned_trio (rest_at 0 0)
               eq_refl eq_refl), Hvis.
    eexists. split; [apply get_put_boid_eq; now eexists|].
    unfold sum_R. cbn. f_equal; lra.
  - unfold alignment_spec. rewrite Hvis. unfold mean, sum_R. cbn.
    f_equal; lra.
Qed.

(** C3.  After [update_boid] returns, the speed of the updated agent is at
    most [max_speed] (for a [max_speed] that is not negative); the call
    does return when the affinity targets resolve; and the boundary step
    run after the clamp leaves the speed within [max_speed]. *)
Theorem speed_bound_after_update_boid (w : Simulation) (fi bi : nat)
    (self : Flock) (boid : Boid) :
  flocks w !! fi = Some self -> boids self !! bi = Some boid ->
  0 <= max_speed self ->
  (resolvable w (affinity self) -> returns (update_boid w fi bi)) /\
  (forall w', update_boid w fi bi = Ok w' ->
     exists boid', get_boid w' fi bi = Some boid' /\
                   hypot (vx boid') (vy boid') <= max_speed self) /\
  (exists w1 w2 boid2,
     limit_speed w fi bi = Ok w1 /\ keep_in_bounds w1 fi bi = Ok w2 /\
     get_boid w2 fi bi = Some boid2 /\
     hypot (vx boid2) (vy boid2) <= max_speed self).
Proof.
  intros Hf Hb Hm.
  assert (is_Some (get_boid w fi bi)) as Hsome.
  { unfold get_boid. rewrite Hf, Hb. now eexists. }
  split; [|split].
  - intros Hres. now apply update_boid_returns with (self := self) (boid := boid).
  - intros w' Hup.
    destruct (update_boid_eq _ _ _ _ _ _ Hf Hb Hup) as (a & b & ->).
    eexists. split; [now apply get_put_boid_eq|]. cbn [vx vy update_position].
    eapply Rle_trans; [apply steer_inside_bound|].
    now apply clamp_velocity_bound.
  - set (c := clamp_velocity self boid).
    exists (put_boid w fi bi c),
           (put_boid (put_boid w fi bi c) fi bi
              (steer_inside (put_boid w fi bi c)
                 (set_boids self (<[bi := c]> (boids self))) c)),
           (steer_inside (put_boid w fi bi c)
              (set_boids self (<[bi := c]> (boids self))) c).
    split; [now apply limit_speed_eq|].
    split; [apply keep_in_bounds_eq;
            [now apply lookup_put_boid_eq
            |now apply (boid_after_put w fi bi self boid)]|].
    split; [apply get_put_boid_eq; now rewrite get_put_boid_eq|].
    eapply Rle_trans; [apply steer_inside_bound|].
    now apply clamp_velocity_bound.
Qed.

(** The first agent of the example world, after its update. *)
Lemma speed_bound_after_update_boid_witness :
  flocks example_world !! 0%nat = Some example_flock /\
  boids example_flock !! 0%nat = Some (rest_at 0 0) /\
  0 <= max_speed example_flock /\
  exists boid',
    get_boid (put_boid example_world 0 0
                (first_moved example_flock (rest_at 0 0)))
             0 0 = Some boid' /\
    hypot (vx boid') (vy boid') <= max_speed example_flock.
Proof.
  assert (0 <= max_speed example_flock) as Hm by (cbn; lra).
  split; [reflexivity|]. split; [reflexivity|]. split; [exact Hm|].
  exact (proj1 (proj2 (speed_bound_after_update_boid example_world 0 0
                         example_flock (rest_at 0 0) eq_refl eq_refl Hm))
           _ example_first).
Defined.

(** C4 as stated fails: resolving an affinity target that has no agent
    raises [ValueError] (the [min] of an empty list), also through
    [update_boid], and [get_center] of a flock without agents raises
    [ZeroDivisionError]. *)
Lemma empty_flock_raises :
  rule_affinity hunt_world 0 0 = Raise ValueError /\
  ~ returns (rule_affinity hunt_world 0 0) /\
  ~ returns (update_boid hunt_world 0 0) /\
  get_center no_prey = Raise ZeroDivisionError /\
  ~ returns (get_center no_prey).
Proof.
  pose proof hunt_world_affinity_raises as Haff.
  pose proof (get_center_empty no_prey eq_refl) as Hc.
  split; [exact Haff|]. split; [|split; [|split; [exact Hc|]]].
  - rewrite Haff. intros [? ?]. discriminate.
  - unfold update_boid.
    rewrite (rule_alignment_zero hunt_world 0 0 hunters eq_refl eq_refl).
    rewrite (rule_cohesion_zero hunt_world 0 0 hunters eq_refl eq_refl).
    cbn [bind].
    assert (rule_separation hunt_world 0 0 = hunt_world) as ->.
    { rewrite (rule_separation_eq hunt_world 0 0 hunters (rest_at 0 0)
                 eq_refl eq_refl).
      unfold separation_spec, crowding_neighbors, others.
      cbn [boids hunters delete list_delete]. rewrite filter_nil.
      cbn [map sum_R foldr fst snd]. rewrite !Rmult_0_l, !Rplus_0_r.
      rewrite set_velocity_same.
      now apply (put_boid_same _ _ _ hunters). }
    rewrite Haff. intros [? ?]. discriminate.
  - rewrite Hc. intros [? ?]. discriminate.
Qed.

(** C4 (as amended).  Without any visible neighbour, and in a single-agent
    flock, no rule raises: [rule_cohesion] always returns and is the
    identity without a visible neighbour, [rule_alignment] then damps the
    velocity by [alignment], [rule_separation] is the identity when no other
    agent is closer than [min_separation], [rule_affinity] returns whenever
    every target resolves to a flock with at least one agent, and
    [get_center] returns on every flock with at least one agent. *)
Theorem no_neighbors_never_raise :
  (forall w fi bi, returns (rule_cohesion w fi bi)) /\
  (forall w fi bi self boid,
     flocks w !! fi = Some self -> boids self !! bi = Some boid ->
     visible_neighbors self bi boid = [] ->
     rule_cohesion w fi bi = Ok w /\
     rule_alignment w fi bi
     = put_boid w fi bi
         (set_velocity boid (vx boid + (0 - vx boid) * alignment self)
                            (vy boid + (0 - vy boid) * alignment self))) /\
  (forall w fi bi self boid,
     flocks w !! fi = Some self -> boids self !! bi = Some boid ->
     crowding_neighbors self bi boid = [] ->
     rule_separation w fi bi = w) /\
  (forall w fi bi self,
     flocks w !! fi = Some self -> resolvable w (affinity self) ->
     returns (rule_affinity w fi bi)) /\
  (forall self, boids self <> [] -> returns (get_center self)).
Proof.
  split; [exact rule_cohesion_returns|]. split; [|split; [|split]].
  - intros w fi bi self boid Hf Hb Hvis. split.
    + now rewrite (rule_cohesion_eq _ _ _ _ _ Hf Hb), Hvis.
    + now rewrite (rule_alignment_eq _ _ _ _ _ Hf Hb), Hvis.
  - intros w fi bi self boid Hf Hb Hcrowd.
    rewrite (rule_separation_eq _ _ _ _ _ Hf Hb).
    unfold separation_spec. rewrite Hcrowd.
    cbn [map sum_R foldr fst snd]. rewrite !Rmult_0_l, !Rplus_0_r.
    rewrite set_velocity_same. now apply (put_boid_same _ _ _ self).
  - intros w fi bi self Hf Hres. now apply rule_affinity_returns with (self := self).
  - exact get_center_returns.
Qed.

(** A lone hunter whose prey flock has one agent. *)
Lemma no_neighbors_never_raise_witness :
  flocks fed_world !! 0%nat = Some hunters /\
  boids hunters !! 0%nat = Some (rest_at 0 0) /\
  visible_neighbors hunters 0 (rest_at 0 0) = [] /\
  resolvable fed_world (affinity hunters) /\
  boids prey_flock <> [] /\
  rule_cohesion fed_world 0 0 = Ok fed_world /\
  returns (rule_affinity fed_world 0 0) /\
  returns (get_center prey_flock).
Proof.
  assert (boids prey_flock <> []) as Hne by discriminate.
  split; [reflexivity|]. split; [reflexivity|]. split; [exact hunter_alone|].
  split; [exact fed_world_resolvable|]. split; [exact Hne|].
  destruct no_neighbors_never_raise as (_ & Hiso & _ & Haff & Hcenter).
  split; [|split].
  - exact (proj1 (Hiso fed_world 0%nat 0%nat hunters (rest_at 0 0)
                    eq_refl eq_refl hunter_alone)).
  - exact (Haff fed_world 0%nat 0%nat hunters eq_refl fed_world_resolvable).
  - exact (Hcenter prey_flock Hne).
Defined.

(** C5.  [keep_in_bounds] returns and never increases the speed.  With [v]
    the velocity on entry and [v'] the velocity after the per-axis
    corrections: if [|v'| > |v|] the velocity left in the boid is [v'] scaled
    by the non-negative factor [|v| / |v'|] and has magnitude exactly [|v|];
    otherwise it is [v'].  [_set_magnitude] maps the zero vector to the zero
    vector without dividing. *)
Theorem keep_in_bounds_never_accelerates (w : Simulation) (fi bi : nat)
    (self : Flock) (boid : Boid) :
  flocks w !! fi = Some self -> boids self !! bi = Some boid ->
  let v := (vx boid, vy boid) in
  let v' := corrected_velocity w self (x boid, y boid) v in
  (exists w' boid',
     keep_in_bounds w fi bi = Ok w' /\ get_boid w' fi bi = Some boid' /\
     (hypot (fst v') (snd v') > hypot (fst v) (snd v) ->
        hypot (vx boid') (vy boid') = hypot (fst v) (snd v) /\
        exists k, 0 <= k /\ vx boid' = k * fst v' /\ vy boid' = k * snd v') /\
     (hypot (fst v') (snd v') <= hypot (fst v) (snd v) ->
        (vx boid', vy boid') = v') /\
     hypot (vx boid') (vy boid') <= hypot (fst v) (snd v)) /\
  (forall magnitude, _set_magnitude (0, 0) magnitude = Ok (0, 0)).
Proof.
  intros Hf Hb v v'. subst v. cbn [fst snd] in *. split.
  - exists (put_boid w fi bi (steer_inside w self boid)),
           (steer_inside w self boid).
    split; [now apply keep_in_bounds_eq|].
    split; [apply get_put_boid_eq; unfold get_boid; rewrite Hf, Hb;
            now eexists|].
    split; [|split; [|apply steer_inside_bound]].
    + intros Hgt. unfold steer_inside. fold v'. cbn zeta.
      destruct (Rgt_dec _ _) as [_|Hn]; [|contradiction].
      cbn [vx vy set_velocity fst snd] in *.
      pose proof (hypot_nonneg (vx boid) (vy boid)) as H0.
      split.
      * rewrite hypot_scale by (apply div_nonneg; lra). field. lra.
      * exists (hypot (vx boid) (vy boid) / hypot (fst v') (snd v')).
        split; [apply div_nonneg; lra|]. split; ring.
    + intros Hle. unfold steer_inside. fold v'. cbn zeta.
      destruct (Rgt_dec _ _) as [Hgt|_]; [cbn [fst snd] in *; lra|].
      cbn [vx vy set_velocity]. now destruct v'.
  - intros magnitude. unfold _set_magnitude.
    destruct (Req_dec_T _ _) as [_|Hne]; [reflexivity|].
    exfalso. apply Hne. rewrite hypot_pow2. unfold hypot.
    replace (0 * 0 + 0 * 0) with 0 by ring. apply sqrt_0.
Qed.

(** An agent beyond the right edge of the window, heading further out. *)
Lemma keep_in_bounds_never_accelerates_witness :
  flocks stray_world !! 0%nat = Some stray_flock /\
  boids stray_flock !! 0%nat = Some stray /\
  exists w' boid',
    keep_in_bounds stray_world 0 0 = Ok w' /\
    get_boid w' 0 0 = Some boid' /\
    hypot (vx boid') (vy boid') <= hypot (vx stray) (vy stray).
Proof.
  split; [reflexivity|]. split; [reflexivity|].
  destruct (keep_in_bounds_never_accelerates stray_world 0 0 stray_flock stray
              eq_refl eq_refl)
    as [(w' & boid' & Hk & Hg & _ & _ & Hle) _].
  exists w', boid'. split; [exact Hk|]. split; [exact Hg|exact Hle].
Defined.

(** C6.  Trails never outgrow [tracer_len]: the world built by
    [Simulation.__init__] satisfies the bound, every [update_boid] and every
    run of ticks with its events keeps it (and a run on a well-configured
    world goes on until a quit event, it never fails), and an append that
    would exceed the capacity drops the front entry. *)
Theorem trail_never_exceeds_tracer_len :
  (forall flock_config window_size bg sl rng,
     trail_bounded (Simulation_init flock_config window_size bg sl rng)) /\
  (forall w fi bi w',
     trail_bounded w -> update_boid w fi bi = Ok w' -> trail_bounded w') /\
  (forall w polls w',
     trail_bounded w -> run w polls = Running w' -> trail_bounded w') /\
  (forall w polls,
     well_configured w ->
     run w polls = Exited \/ exists w', run w polls = Running w') /\
  (forall n self,
     (0 <= n)%Z -> (Z.of_nat (length (pos_history self)) <= n)%Z ->
     (Z.of_nat (length (pos_history (update_position n self))) <= n)%Z /\
     ((n < Z.of_nat (length (pos_history self)) + 1)%Z ->
      pos_history (update_position n self)
      = drop 1 (pos_history self ++ [(x self, y self)])) /\
     ((Z.of_nat (length (pos_history self)) + 1 <= n)%Z ->
      pos_history (update_position n self)
      = pos_history self ++ [(x self, y self)])).
Proof.
  split; [exact Simulation_init_trail_bounded|].
  split; [exact update_boid_trail_bounded|].
  split; [intros w polls w'; apply run_trail_bounded|].
  split.
  { intros w polls Hw. destruct (run_total polls w Hw) as [H|(w' & H & _)];
      [now left|right; now exists w']. }
  intros n self Hn Hlen. split; [now apply update_position_bounded|].
  rewrite update_position_history, length_app. cbn [length].
  split; intros H.
  - destruct (Z.ltb_spec n (Z.of_nat (length (pos_history self) + 1)));
      [reflexivity|lia].
  - destruct (Z.ltb_spec n (Z.of_nat (length (pos_history self) + 1)));
      [lia|reflexivity].
Qed.

(** Two ticks of the example world, the window being resized after the
    second. *)
Lemma trail_never_exceeds_tracer_len_witness :
  trail_bounded example_world /\
  exists w', run example_world [[]; [VIDEORESIZE 640 480]] = Running w' /\
             trail_bounded w'.
Proof.
  split; [exact example_world_trail_bounded|].
  destruct (run_total [[]; [VIDEORESIZE 640 480]] example_world
              example_world_well_configured) as [Hexit|(w' & Hrun & _)].
  - exfalso. cbn [run] in Hexit.
    destruct (tick example_world) as [w1|]; [|discriminate].
    cbn [handle_events] in Hexit.
    destruct (tick w1) as [w2|]; discriminate.
  - exists w'. split; [exact Hrun|].
    exact (proj1 (proj2 (proj2 trail_never_exceeds_tracer_len))
             example_world _ w' example_world_trail_bounded Hrun).
Defined.




(** C8.  [rule_separation] adds to the velocity the sum of
    [position - neighbor.position] over the other agents of the flock that
    are strictly closer than [min_separation], scaled by [separation];
    position and trail are untouched, and when every other agent is at
    distance [min_separation] or more the velocity is unchanged. *)
Theorem separation_adds_crowding_sum (w : Simulation) (fi bi : nat)
    (self : Flock) (boid : Boid) :
  flocks w !! fi = Some self -> boids self !! bi = Some boid ->
  let crowd :=
    filter (fun other =>
              dist (x boid, y boid) (x other, y other) < min_separation self)
           (delete bi (boids self)) in
  (exists boid',
     get_boid (rule_separation w fi bi) fi bi = Some boid' /\
     vx boid' = vx boid
                + sum_R (map (fun other => x boid - x other) crowd)
                  * separation self /\
     vy boid' = vy boid
                + sum_R (map (fun other => y boid - y other) crowd)
                  * separation self /\
     x boid' = x boid /\ y boid' = y boid /\
     pos_history boid' = pos_history boid) /\
  ((forall other, other ∈ delete bi (boids self) ->
      min_separation self <= dist (x boid, y boid) (x other, y other)) ->
   rule_separation w fi bi = w).
Proof.
  intros Hf Hb crowd.
  pose proof (rule_separation_eq _ _ _ _ _ Hf Hb) as Heq.
  unfold separation_spec, crowding_neighbors, others in Heq.
  fold crowd in Heq. cbn [fst snd] in Heq. split.
  - rewrite Heq. eexists. split.
    + apply get_put_boid_eq. unfold get_boid. rewrite Hf, Hb. now eexists.
    + repeat split.
  - intros Hfar. rewrite Heq.
    assert (crowd = []) as ->.
    { unfold crowd. apply filter_none.
      intros other Hin Hlt. specialize (Hfar other Hin). lra. }
    cbn [map sum_R foldr]. rewrite !Rmult_0_l, !Rplus_0_r.
    rewrite set_velocity_same. now apply (put_boid_same _ _ _ self).
Qed.

(** The first agent of the example world: one neighbour, 3 away. *)
Lemma separation_adds_crowding_sum_witness :
  flocks example_world !! 0%nat = Some example_flock /\
  boids example_flock !! 0%nat = Some (rest_at 0 0) /\
  exists boid',
    get_boid (rule_separation example_world 0 0) 0 0 = Some boid' /\
    vx boid'
    = 0 + sum_R (map (fun other => 0 - x other)
                   (filter (fun other =>
                              dist (0, 0) (x other, y other) < 10)
                           [rest_at 3 0])) * 1 /\
    x boid' = 0 /\ y boid' = 0.
Proof.
  split; [reflexivity|]. split; [reflexivity|].
  destruct (proj1 (separation_adds_crowding_sum example_world 0 0 example_flock
                     (rest_at 0 0) eq_refl eq_refl))
    as (boid' & Hg & Hvx & _ & Hx & Hy & _).
  exists boid'. split; [exact Hg|]. split; [exact Hvx|].
  split; [exact Hx|exact Hy].
Defined.

(** C9 as stated fails.  With every draw at 9/10 the agent built in a window
    of 800 by 600 starts at (360,270), outside the rectangle centred at the
    origin whose sides are half the width and half the height; and no draw
    gives a negative coordinate. *)
Lemma initial_position_not_centered :
  unit_draw (9 / 10) /\
  (exists boid, boid ∈ boids (drawn_flock (9 / 10)) /\
                (x boid, y boid) = (360, 270) /\
                ~ centered_half_window 800 600 (x boid, y boid)) /\
  ~ (exists u boid, unit_draw u /\ boid ∈ boids (drawn_flock u) /\
                    (x boid < 0 \/ y boid < 0)).
Proof.
  split; [unfold unit_draw; lra|]. split.
  - eexists. split; [rewrite drawn_flock_boids; left|].
    unfold create_random, uniform. cbn [x y fst snd]. split.
    + f_equal; lra.
    + unfold centered_half_window. cbn [fst snd]. lra.
  - intros (u & boid & [Hu Hu'] & Hin & Hneg).
    rewrite drawn_flock_boids in Hin. apply list_elem_of_singleton in Hin as ->.
    unfold create_random, uniform in Hneg. cbn [x y fst snd] in Hneg.
    destruct Hneg; lra.
Qed.

(** C9 (as amended).  Every agent built by [Flock.__init__], whatever the
    draws of [random()], starts in the rectangle that has the origin as a
    corner and is half the window wide and half the window high (no
    coordinate is negative), with both velocity components between -1 and
    1 and an empty trail; the flock has [num_boids] agents. *)
Theorem initial_state_ranges (sim_width sim_height : Z) (flock_id : option string)
    (count : Z) (aff : list (string * R))
    (al se co ms mx bf sr : R) (col : ColorType) (tl : Z) (shade : R)
    (enabled : bool) (rng : nat -> R) (k0 : nat) (boid : Boid) :
  (forall k, unit_draw (rng k)) ->
  (0 <= sim_width)%Z -> (0 <= sim_height)%Z ->
  boid ∈ boids (Flock_init sim_width sim_height flock_id count aff
                  al se co ms mx bf sr col tl shade enabled rng k0) ->
  corner_half_window sim_width sim_height (x boid, y boid) /\
  -1 <= vx boid <= 1 /\ -1 <= vy boid <= 1 /\
  pos_history boid = [] /\
  length (boids (Flock_init sim_width sim_height flock_id count aff
                   al se co ms mx bf sr col tl shade enabled rng k0))
  = Z.to_nat count.
Proof.
  intros Hrng Hw Hh Hin. cbn [boids Flock_init] in *.
  apply create_boids_spec in Hin as (j & ->).
  apply IZR_le in Hw, Hh.
  pose proof (Hrng j) as [H1 H1']. pose proof (Hrng (j + 1)%nat) as [H2 H2'].
  pose proof (Hrng (j + 2)%nat) as [H3 H3'].
  pose proof (Hrng (j + 3)%nat) as [H4 H4'].
  unfold corner_half_window, create_random, uniform. cbn [x y vx vy fst snd].
  repeat split; try nra. apply create_boids_length.
Qed.

(** Every draw at 9/10, in a window of 800 by 600. *)
Lemma initial_state_ranges_witness :
  (forall k : nat, unit_draw ((fun _ => 9 / 10) k)) /\
  (0 <= 800)%Z /\ (0 <= 600)%Z /\
  corner_half_window 800 600
    (x (create_random (0, 0) (800 / 2, 600 / 2) (-1) 1
          (9 / 10, 9 / 10, 9 / 10, 9 / 10)),
     y (create_random (0, 0) (800 / 2, 600 / 2) (-1) 1
          (9 / 10, 9 / 10, 9 / 10, 9 / 10))).
Proof.
  assert (forall k : nat, unit_draw ((fun _ => 9 / 10) k)) as Hrng
    by (intros k; unfold unit_draw; lra).
  assert (0 <= 800)%Z as Hw by lia. assert (0 <= 600)%Z as Hh by lia.
  split; [exact Hrng|]. split; [exact Hw|]. split; [exact Hh|].
  apply (initial_state_ranges 800 600 None 1 [] 0 1 0 10 100 1 50
           (255, 255, 255)%Z 10 (1 / 2) true (fun _ => 9 / 10) 0 _ Hrng Hw Hh).
  fold (drawn_flock (9 / 10)). rewrite drawn_flock_boids. left.
Defined.

(** C10.  [update_boid] mutates only the agent it is given: when it
    returns, the window size is unchanged, every flock keeps all its
    parameters and the number of its agents, and every agent at another
    address keeps its position, velocity and trail. *)
Theorem update_boid_mutates_only_its_boid (w : Simulation) (fi bi : nat)
    (w' : Simulation) :
  update_boid w fi bi = Ok w' ->
  width w' = width w /\ height w' = height w /\
  background_color w' = background_color w /\
  step_length w' = step_length w /\
  length (flocks w') = length (flocks w) /\
  (forall k f, flocks w !! k = Some f ->
     exists f', flocks w' !! k = Some f' /\ same_parameters f f' /\
                length (boids f') = length (boids f)) /\
  (forall k j, (k, j) <> (fi, bi) -> get_boid w' k j = get_boid w k j).
Proof.
  intros Hup. destruct (update_boid_only_boid_changed _ _ _ _ Hup).
  repeat (split; [assumption|]). split; [|assumption].
  intros k f Hk. destruct (frame_parameters0 k f Hk) as (f' & Hk' & Hp & Hl).
  exists f'. split; [assumption|]. split; [now apply parameters_same|assumption].
Qed.

(** Updating the first agent of the example world leaves the second
    alone. *)
Lemma update_boid_mutates_only_its_boid_witness :
  update_boid example_world 0 0
  = Ok (put_boid example_world 0 0
          (first_moved example_flock (rest_at 0 0))) /\
  get_boid (put_boid example_world 0 0
              (first_moved example_flock (rest_at 0 0))) 0 1
  = get_boid example_world 0 1.
Proof.
  split; [exact example_first|].
  apply (update_boid_mutates_only_its_boid _ _ _ _ example_first).
  intros [= ?].
Defined.

(** * Further properties of the code *)

(** ** The four rules *)

Lemma min_loop_first_least {A} (key : A -> R) (l : list A) : forall best,
  exists before after,
    best :: l = before ++ min_loop key best l :: after /\
    (forall a, a ∈ before -> key (min_loop key best l) < key a) /\
    (forall a, a ∈ after -> key (min_loop key best l) <= key a).
Proof.
  induction l as [|a l IH]; intros best; cbn [min_loop].
  - exists [], []. split; [reflexivity|]. split; intros a Ha; inversion Ha.
  - destruct (Rlt_dec (key a) (key best)) as [Hlt|Hge].
    + destruct (IH a) as (before & after & Heq & Hb & Ha).
      exists (best :: before), after. split; [cbn; f_equal; exact Heq|].
      split; [|exact Ha].
      intros c [->|Hc]%elem_of_cons; [|now apply Hb].
      destruct before as [|b0 before]; cbn in Heq; injection Heq as Hhd _.
      * rewrite <- Hhd. exact Hlt.
      * subst b0. eapply Rlt_trans; [apply Hb; left|exact Hlt].
    + destruct (IH best) as (before & after & Heq & Hb & Ha).
      destruct before as [|b0 before]; cbn in Heq; injection Heq as Hhd Htl.
      * exists [], (a :: l). split; [cbn; f_equal; exact Hhd|].
        split; [intros c Hc; inversion Hc|].
        intros c [->|Hc]%elem_of_cons.
        -- rewrite <- Hhd. lra.
        -- apply Ha. rewrite <- Htl. exact Hc.
      * subst b0. exists (best :: a :: before), after.
        split; [cbn; do 2 f_equal; exact Htl|]. split; [|exact Ha].
        intros c [->|[->|Hc]%elem_of_cons]%elem_of_cons.
        -- apply Hb. left.
        -- eapply Rlt_le_trans; [apply Hb; left|]. lra.
        -- apply Hb. now right.
Qed.

Lemma py_min_first_nearest boid l :
  l <> [] ->
  exists closest,
    py_min (fun other => dist (x boid, y boid) (x other, y other)) l
    = Ok closest /\ first_nearest boid closest l.
Proof.
  destruct l as [|a l]; [contradiction|]. intros _. cbn [py_min].
  eexists. split; [reflexivity|].
  destruct (min_loop_first_least
              (fun other => dist (x boid, y boid) (x other, y other)) l a)
    as (before & after & Heq & Hb & Ha).
  now exists before, after.
Qed.

Lemma dist_self p : dist p p = 0.
Proof.
  unfold dist. replace (_ + _) with 0 by ring. apply sqrt_0.
Qed.

Lemma dist_zero p q : dist p q = 0 -> p = q.
Proof.
  rewrite dist_hypot. intros [H1 H2]%hypot_zero.
  destruct p, q. cbn in *. f_equal; lra.
Qed.

Lemma dist_sym p q : dist p q = dist q p.
Proof. unfold dist. f_equal. ring. Qed.

Lemma dist_nonneg p q : 0 <= dist p q.
Proof. apply sqrt_pos. Qed.

(** X1.  What [rule_alignment] does: it adds to the velocity the sum of the
    velocities of the other agents of the flock within [sight_range], minus
    the agent's own velocity, times [alignment].  Position and trail are
    kept, and an agent that sees nobody has its velocity scaled by
    [1 - alignment]. *)
Theorem alignment_adds_neighbor_sum (w : Simulation) (fi bi : nat)
    (self : Flock) (boid : Boid) :
  flocks w !! fi = Some self -> boids self !! bi = Some boid ->
  let seen :=
    filter (fun other =>
              dist (x boid, y boid) (x other, y other) <= sight_range self)
           (delete bi (boids self)) in
  exists boid',
    get_boid (rule_alignment w fi bi) fi bi = Some boid' /\
    vx boid' = vx boid + (sum_R (map vx seen) - vx boid) * alignment self /\
    vy boid' = vy boid + (sum_R (map vy seen) - vy boid) * alignment self /\
    x boid' = x boid /\ y boid' = y boid /\
    pos_history boid' = pos_history boid /\
    (seen = [] -> vx boid' = (1 - alignment self) * vx boid /\
                  vy boid' = (1 - alignment self) * vy boid).
Proof.
  intros Hf Hb seen.
  pose proof (rule_alignment_eq _ _ _ _ _ Hf Hb) as Heq.
  unfold visible_neighbors, others in Heq. fold seen in Heq.
  rewrite Heq. eexists. split.
  - apply get_put_boid_eq. unfold get_boid. rewrite Hf, Hb. now eexists.
  - cbn [vx vy x y pos_history set_velocity]. repeat split.
    + rewrite H. cbn. lra.
    + rewrite H. cbn. lra.
Qed.

(** The first of the two movers sees the second. *)
Lemma alignment_adds_neighbor_sum_witness :
  flocks movers_world !! 0%nat = Some movers /\
  exists boid',
    get_boid (rule_alignment movers_world 0 0) 0 0 = Some boid' /\
    x boid' = 0 /\ y boid' = 0.
Proof.
  split; [reflexivity|].
  destruct (alignment_adds_neighbor_sum movers_world 0 0 movers
              {| x := 0; y := 0; vx := 3; vy := 4; pos_history := [] |}
              eq_refl eq_refl)
    as (boid' & Hg & _ & _ & Hx & Hy & _).
  exists boid'. split; [exact Hg|]. split; [exact Hx|exact Hy].
Defined.

(** X2.  What [rule_cohesion] does: without a visible neighbour it changes
    nothing; otherwise it adds to the velocity the offset from the agent to
    the arithmetic mean of the visible neighbours' positions, times
    [cohesion].  It never raises. *)
Theorem cohesion_steers_to_centroid (w : Simulation) (fi bi : nat)
    (self : Flock) (boid : Boid) :
  flocks w !! fi = Some self -> boids self !! bi = Some boid ->
  let seen :=
    filter (fun other =>
              dist (x boid, y boid) (x other, y other) <= sight_range self)
           (delete bi (boids self)) in
  (seen = [] -> rule_cohesion w fi bi = Ok w) /\
  (seen <> [] ->
   exists w' boid',
     rule_cohesion w fi bi = Ok w' /\ get_boid w' fi bi = Some boid' /\
     vx boid' = vx boid
                + (sum_R (map x seen) / INR (length seen) - x boid)
                  * cohesion self /\
     vy boid' = vy boid
                + (sum_R (map y seen) / INR (length seen) - y boid)
                  * cohesion self /\
     x boid' = x boid /\ y boid' = y boid /\
     pos_history boid' = pos_history boid).
Proof.
  intros Hf Hb seen.
  pose proof (rule_cohesion_eq _ _ _ _ _ Hf Hb) as Heq.
  unfold visible_neighbors, others in Heq. fold seen in Heq.
  split; intros Hseen.
  - now rewrite Heq, Hseen.
  - rewrite Heq. destruct seen as [|n0 ns] eqn:E; [contradiction|].
    eexists. eexists. split; [reflexivity|]. split.
    + apply get_put_boid_eq. unfold get_boid. rewrite Hf, Hb. now eexists.
    + cbn [vx vy x y pos_history set_velocity]. unfold mean.
      cbn [map length]. rewrite !length_map. repeat split.
Qed.

Lemma movers_see_each_other :
  filter (fun other => dist (0, 0) (x other, y other) <= 50)
         [ {| x := 3; y := 4; vx := 1; vy := 0; pos_history := [] |} ]
  <> [].
Proof.
  rewrite filter_cons_True; [discriminate|].
  rewrite dist_hypot. cbn. apply hypot_le_iff; lra.
Qed.

(** The first of the two movers is drawn toward the second. *)
Lemma cohesion_steers_to_centroid_witness :
  flocks movers_world !! 0%nat = Some movers /\
  exists w' boid',
    rule_cohesion movers_world 0 0 = Ok w' /\
    get_boid w' 0 0 = Some boid' /\ x boid' = 0 /\ y boid' = 0.
Proof.
  split; [reflexivity|].
  destruct (proj2 (cohesion_steers_to_centroid movers_world 0 0 movers
                     {| x := 0; y := 0; vx := 3; vy := 4; pos_history := [] |}
                     eq_refl eq_refl) movers_see_each_other)
    as (w' & boid' & Hr & Hg & _ & _ & Hx & Hy & _).
  exists w', boid'. split; [exact Hr|]. split; [exact Hg|].
  split; [exact Hx|exact Hy].
Defined.

Lemma hypot_scale_abs a b k : hypot (a * k) (b * k) = Rabs k * hypot a b.
Proof.
  unfold hypot.
  replace (a * k * (a * k) + b * k * (b * k)) with (Rsqr k * (a * a + b * b))
    by (unfold Rsqr; ring).
  rewrite sqrt_mult by (apply Rle_0_sqr || apply sum_squares_nonneg).
  now rewrite sqrt_Rsqr_abs.
Qed.

(** X3.  One affinity entry: [rule_affinity] picks, in the target flock, the
    first agent at the least distance; if that agent is within
    [sight_range] the velocity gains the offset to it times the strength (so
    a negative strength pushes away), otherwise nothing changes.  Position
    and trail are kept. *)
Theorem affinity_follows_first_nearest (w : Simulation) (fi bi : nat)
    (self : Flock) (boid : Boid) (target_id : string) (strength : R)
    (target : Flock) :
  flocks w !! fi = Some self -> boids self !! bi = Some boid ->
  affinity self = [(target_id, strength)] ->
  get_flock w target_id = Ok target -> boids target <> [] ->
  exists closest,
    first_nearest boid closest (boids target) /\
    (dist (x boid, y boid) (x closest, y closest) <= sight_range self ->
     exists boid',
       rule_affinity w fi bi = Ok (put_boid w fi bi boid') /\
       vx boid' = vx boid + (x closest - x boid) * strength /\
       vy boid' = vy boid + (y closest - y boid) * strength /\
       x boid' = x boid /\ y boid' = y boid /\
       pos_history boid' = pos_history boid) /\
    (sight_range self < dist (x boid, y boid) (x closest, y closest) ->
     rule_affinity w fi bi = Ok w).
Proof.
  intros Hf Hb Haf Hg Hne.
  destruct (py_min_first_nearest boid _ Hne) as (closest & Hmin & Hfirst).
  exists closest. split; [exact Hfirst|].
  assert (rule_affinity w fi bi
          = Ok (if in_range (sight_range self) boid closest
                then put_boid w fi bi
                       (set_velocity boid
                          (vx boid + (x closest - x boid) * strength)
                          (vy boid + (y closest - y boid) * strength))
                else w)) as Heq.
  { unfold rule_affinity. rewrite (with_boid_found _ _ _ _ _ _ _ Hf Hb), Haf.
    cbn [rule_affinity_loop].
    rewrite (with_boid_found _ _ _ _ _ _ _ Hf Hb), Hg. cbn [bind].
    rewrite Hmin. cbn [bind]. now destruct (in_range _ _ _). }
  rewrite Heq. unfold in_range. split; intros Hd.
  - destruct (Rle_dec _ _); [|contradiction].
    eexists. split; [reflexivity|]. repeat split.
  - destruct (Rle_dec _ _); [lra|reflexivity].
Qed.

(** The hunter whose prey stands 5 away. *)
Lemma affinity_follows_first_nearest_witness :
  flocks fed_world !! 0%nat = Some hunters /\
  boids hunters !! 0%nat = Some (rest_at 0 0) /\
  affinity hunters = [("prey", 1)] /\
  get_flock fed_world "prey" = Ok prey_flock /\ boids prey_flock <> [] /\
  exists closest, first_nearest (rest_at 0 0) closest (boids prey_flock).
Proof.
  assert (get_flock fed_world "prey" = Ok prey_flock) as Hg.
  { apply get_flock_Ok. exists 1%nat. split; [reflexivity|].
    split; [reflexivity|]. intros j other Hj Hlt.
    assert (j = 0%nat) as -> by lia. injection Hj as <-. discriminate. }
  assert (boids prey_flock <> []) as Hne by discriminate.
  split; [reflexivity|]. split; [reflexivity|]. split; [reflexivity|].
  split; [exact Hg|]. split; [exact Hne|].
  destruct (affinity_follows_first_nearest fed_world 0 0 hunters (rest_at 0 0)
              "prey" 1 prey_flock eq_refl eq_refl eq_refl Hg Hne)
    as (closest & Hfirst & _).
  exists closest. exact Hfirst.
Defined.

Lemma first_nearest_self boid closest l :
  boid ∈ l -> first_nearest boid closest l ->
  x closest = x boid /\ y closest = y boid.
Proof.
  intros Hin (before & after & -> & Hb & Ha).
  assert (dist (x boid, y boid) (x closest, y closest) = 0) as H0.
  { pose proof (dist_nonneg (x boid, y boid) (x closest, y closest)) as Hpos.
    pose proof (dist_self (x boid, y boid)) as Hself.
    apply elem_of_app in Hin as [Hin|[->|Hin]%elem_of_cons].
    - specialize (Hb _ Hin). lra.
    - exact Hself.
    - specialize (Ha _ Hin). lra. }
  apply dist_zero in H0. now injection H0 as <- <-.
Qed.

Lemma rule_affinity_loop_self entries : forall w fi bi self boid,
  flocks w !! fi = Some self -> boids self !! bi = Some boid ->
  Forall (fun entry => get_flock w (fst entry) = Ok self) entries ->
  rule_affinity_loop w fi bi entries = Ok w.
Proof.
  induction entries as [|[flock_id aff] rest IH];
    intros w fi bi self boid Hf Hb Hall; cbn [rule_affinity_loop];
    [reflexivity|].
  apply Forall_cons in Hall as [Hg Hall]. cbn [fst] in Hg.
  rewrite (with_boid_found _ _ _ _ _ _ _ Hf Hb), Hg. cbn [bind].
  assert (boids self <> []) as Hne.
  { intros E. rewrite E in Hb. discriminate. }
  destruct (py_min_first_nearest boid _ Hne) as (closest & -> & Hfirst).
  cbn [bind].
  destruct (first_nearest_self boid closest (boids self)) as [Hx Hy];
    [eapply list_elem_of_lookup_2; exact Hb|exact Hfirst|].
  rewrite Hx, Hy, !Rminus_diag, !Rmult_0_l, !Rplus_0_r, set_velocity_same.
  rewrite (put_boid_same _ _ _ _ _ Hf Hb).
  destruct (in_range _ _ _); now apply IH with (self := self) (boid := boid).
Qed.

(** X4.  Affinity toward the agent's own flock never changes anything: the
    nearest agent of the flock is the agent itself (or one at the same
    place), so the offset is zero whatever the strength. *)
Theorem affinity_to_own_flock_is_noop (w : Simulation) (fi bi : nat)
    (self : Flock) (boid : Boid) :
  flocks w !! fi = Some self -> boids self !! bi = Some boid ->
  Forall (fun entry => get_flock w (fst entry) = Ok self) (affinity self) ->
  rule_affinity w fi bi = Ok w.
Proof.
  intros Hf Hb Hall. unfold rule_affinity.
  rewrite (with_boid_found _ _ _ _ _ _ _ Hf Hb).
  now apply rule_affinity_loop_self with (self := self) (boid := boid).
Qed.

(** The movers name their own flock in their affinity list. *)
Lemma affinity_to_own_flock_is_noop_witness :
  flocks movers_world !! 0%nat = Some movers /\
  Forall (fun entry => get_flock movers_world (fst entry) = Ok movers)
         (affinity movers) /\
  rule_affinity movers_world 0 1 = Ok movers_world.
Proof.
  assert (Forall (fun entry => get_flock movers_world (fst entry) = Ok movers)
            (affinity movers)) as Hall.
  { constructor; [|constructor]. cbn [fst]. apply get_flock_Ok. exists 0%nat.
    split; [reflexivity|]. split; [reflexivity|]. intros j other _ Hlt. lia. }
  split; [reflexivity|]. split; [exact Hall|].
  exact (affinity_to_own_flock_is_noop movers_world 0 1 movers
           {| x := 3; y := 4; vx := 1; vy := 0; pos_history := [] |}
           eq_refl eq_refl Hall).
Defined.

(** ** Speed, bounds and motion *)

(** X5.  The three cases of [limit_speed].  A speed within [max_speed] is
    kept.  A larger, non-zero speed is rescaled: the velocity is multiplied
    by [max_speed / speed], so its magnitude becomes [|max_speed|] (and a
    negative [max_speed] turns it around).  A zero velocity under a negative
    [max_speed] raises [ZeroDivisionError]. *)
Theorem limit_speed_cases (w : Simulation) (fi bi : nat)
    (self : Flock) (boid : Boid) :
  flocks w !! fi = Some self -> boids self !! bi = Some boid ->
  let speed := hypot (vx boid) (vy boid) in
  (speed <= max_speed self -> limit_speed w fi bi = Ok w) /\
  (max_speed self < speed -> speed <> 0 ->
   exists boid',
     limit_speed w fi bi = Ok (put_boid w fi bi boid') /\
     vx boid' = vx boid * (max_speed self / speed) /\
     vy boid' = vy boid * (max_speed self / speed) /\
     hypot (vx boid') (vy boid') = Rabs (max_speed self) /\
     x boid' = x boid /\ y boid' = y boid /\
     pos_history boid' = pos_history boid) /\
  (max_speed self < speed -> speed = 0 ->
   limit_speed w fi bi = Raise ZeroDivisionError).
Proof.
  intros Hf Hb speed. split; [|split].
  - intros Hle. now apply limit_speed_slow with (self := self) (boid := boid).
  - intros Hlt Hne. unfold limit_speed.
    rewrite (with_boid_found _ _ _ _ _ _ _ Hf Hb). cbn zeta. fold speed.
    destruct (Rgt_dec speed (max_speed self)); [|lra].
    rewrite !py_div_nonzero by assumption. cbn [bind].
    eexists. split; [reflexivity|]. cbn [vx vy x y pos_history set_velocity].
    assert (0 < speed) as Hpos.
    { pose proof (hypot_nonneg (vx boid) (vy boid)). unfold speed in *. lra. }
    split; [field; lra|]. split; [field; lra|]. split; [|repeat split].
    replace (vx boid / speed * max_speed self)
      with (vx boid * (max_speed self / speed)) by (field; lra).
    replace (vy boid / speed * max_speed self)
      with (vy boid * (max_speed self / speed)) by (field; lra).
    rewrite hypot_scale_abs. fold speed. unfold Rdiv.
    rewrite Rabs_mult, (Rabs_right (/ speed)).
    + field. lra.
    + apply Rle_ge. left. now apply Rinv_0_lt_compat.
  - intros Hlt H0. unfold limit_speed.
    rewrite (with_boid_found _ _ _ _ _ _ _ Hf Hb). cbn zeta. fold speed.
    destruct (Rgt_dec speed (max_speed self)); [|lra].
    now rewrite H0, py_div_zero.
Qed.

(** The first mover goes at speed 5 under a [max_speed] of 1. *)
Lemma limit_speed_cases_witness :
  flocks movers_world !! 0%nat = Some movers /\
  max_speed movers < hypot 3 4 /\ hypot 3 4 <> 0 /\
  exists boid',
    limit_speed movers_world 0 0 = Ok (put_boid movers_world 0 0 boid') /\
    hypot (vx boid') (vy boid') = Rabs (max_speed movers).
Proof.
  assert (hypot 3 4 = 5) as H5.
  { unfold hypot. replace (3 * 3 + 4 * 4) with (5 * 5) by lra.
    apply sqrt_square. lra. }
  assert (max_speed movers < hypot 3 4) as Hlt by (rewrite H5; cbn; lra).
  assert (hypot 3 4 <> 0) as Hne by (rewrite H5; lra).
  split; [reflexivity|]. split; [exact Hlt|]. split; [exact Hne|].
  destruct (proj1 (proj2 (limit_speed_cases movers_world 0 0 movers
                            {| x := 0; y := 0; vx := 3; vy := 4;
                               pos_history := [] |} eq_refl eq_refl))
              Hlt Hne)
    as (boid' & Hl & _ & _ & Hh & _).
  exists boid'. split; [exact Hl|exact Hh].
Defined.

(** X6.  [keep_in_bounds] changes nothing for an agent inside the window
    (the edges included) and nothing when [boundary_force] is zero; and it
    never sets an agent at rest in motion, wherever the agent is: the
    corrected velocity is scaled back to the magnitude zero. *)
Theorem keep_in_bounds_identity_cases (w : Simulation) (fi bi : nat)
    (self : Flock) (boid : Boid) :
  flocks w !! fi = Some self -> boids self !! bi = Some boid ->
  (0 <= x boid + IZR (width w) / 2 <= IZR (width w) ->
   0 <= y boid + IZR (height w) / 2 <= IZR (height w) ->
   keep_in_bounds w fi bi = Ok w) /\
  (boundary_force self = 0 -> keep_in_bounds w fi bi = Ok w) /\
  (vx boid = 0 -> vy boid = 0 -> keep_in_bounds w fi bi = Ok w).
Proof.
  intros Hf Hb. split; [|split].
  - intros Hx Hy.
    now apply keep_in_bounds_inside with (self := self) (boid := boid).
  - intros H0. rewrite (keep_in_bounds_eq _ _ _ _ _ Hf Hb).
    assert (corrected_velocity w self (x boid, y boid) (vx boid, vy boid)
            = (vx boid, vy boid)) as Hc.
    { unfold corrected_velocity, absolute_coords. cbn [fst snd].
      rewrite H0, !Rplus_0_r, !Rminus_0_r.
      destruct (Rlt_dec _ 0), (Rlt_dec _ 0);
        try destruct (Rgt_dec _ _); try destruct (Rgt_dec _ _); reflexivity. }
    unfold steer_inside. rewrite Hc. cbn [fst snd].
    destruct (Rgt_dec _ _); [lra|].
    now rewrite set_velocity_same, (put_boid_same _ _ _ self).
  - intros Hvx Hvy. rewrite (keep_in_bounds_eq _ _ _ _ _ Hf Hb).
    pose proof (steer_inside_bound w self boid) as Hle.
    assert (hypot (vx boid) (vy boid) = 0) as Hz.
    { rewrite Hvx, Hvy. unfold hypot. replace (0 * 0 + 0 * 0) with 0 by ring.
      apply sqrt_0. }
    rewrite Hz in Hle.
    assert (hypot (vx (steer_inside w self boid)) (vy (steer_inside w self boid))
            = 0) as Hs.
    { pose proof (hypot_nonneg (vx (steer_inside w self boid))
                    (vy (steer_inside w self boid))). lra. }
    apply hypot_zero in Hs as [Hsx Hsy].
    assert (steer_inside w self boid = boid) as ->.
    { assert (x (steer_inside w self boid) = x boid
              /\ y (steer_inside w self boid) = y boid
              /\ pos_history (steer_inside w self boid) = pos_history boid)
        as (Hx & Hy & Hh).
      { unfold steer_inside. cbn zeta. destruct (Rgt_dec _ _); now cbn. }
      destruct (steer_inside w self boid), boid. cbn in *. congruence. }
    now rewrite (put_boid_same _ _ _ self).
Qed.

(** An agent at rest far outside the window stays at rest. *)
Lemma keep_in_bounds_identity_cases_witness :
  flocks sleeper_world !! 0%nat = Some sleeper_flock /\
  boids sleeper_flock !! 0%nat = Some (rest_at 5000 5000) /\
  vx (rest_at 5000 5000) = 0 /\ vy (rest_at 5000 5000) = 0 /\
  keep_in_bounds sleeper_world 0 0 = Ok sleeper_world.
Proof.
  split; [reflexivity|]. split; [reflexivity|]. split; [reflexivity|].
  split; [reflexivity|].
  exact (proj2 (proj2 (keep_in_bounds_identity_cases sleeper_world 0 0
                         sleeper_flock (rest_at 5000 5000) eq_refl eq_refl))
           eq_refl eq_refl).
Defined.

Lemma position_steer w self boid :
  x (steer_inside w self boid) = x boid /\ y (steer_inside w self boid) = y boid.
Proof. unfold steer_inside. cbn zeta. now destruct (Rgt_dec _ _). Qed.

Lemma position_clamp self boid :
  x (clamp_velocity self boid) = x boid /\ y (clamp_velocity self boid) = y boid.
Proof. unfold clamp_velocity. cbn zeta. now destruct (Rgt_dec _ _). Qed.

(** X7.  When [update_boid] returns, the agent has moved by exactly the
    velocity it ends with, and its trail is the old trail with the old
    position appended (less the front entry when that exceeds
    [tracer_len]): the rules never touch position or trail themselves. *)
Theorem update_boid_moves_by_velocity (w : Simulation) (fi bi : nat)
    (self : Flock) (boid : Boid) (w' : Simulation) :
  flocks w !! fi = Some self -> boids self !! bi = Some boid ->
  update_boid w fi bi = Ok w' ->
  exists boid',
    get_boid w' fi bi = Some boid' /\
    x boid' = x boid + vx boid' /\ y boid' = y boid + vy boid' /\
    pos_history boid'
    = if (tracer_len self <? Z.of_nat (length (pos_history boid)) + 1)%Z
      then drop 1 (pos_history boid ++ [(x boid, y boid)])
      else pos_history boid ++ [(x boid, y boid)].
Proof.
  intros Hf Hb Hup.
  destruct (update_boid_eq _ _ _ _ _ _ Hf Hb Hup) as (a & b & ->).
  eexists. split.
  - apply get_put_boid_eq. unfold get_boid. rewrite Hf, Hb. now eexists.
  - set (b4 := set_velocity boid a b).
    destruct (position_steer w self (clamp_velocity self b4)) as [Hx Hy].
    destruct (position_clamp self b4) as [Hx' Hy'].
    rewrite update_position_history, pos_history_steer, pos_history_clamp.
    cbn [x y vx vy update_position]. rewrite Hx, Hy, Hx', Hy'.
    cbn [x y pos_history b4 set_velocity].
    rewrite length_app, Nat2Z.inj_add. cbn [length]. repeat split.
Qed.

(** The first agent of the example world. *)
Lemma update_boid_moves_by_velocity_witness :
  flocks example_world !! 0%nat = Some example_flock /\
  update_boid example_world 0 0
  = Ok (put_boid example_world 0 0 (first_moved example_flock (rest_at 0 0))) /\
  exists boid',
    get_boid (put_boid example_world 0 0
                (first_moved example_flock (rest_at 0 0))) 0 0 = Some boid' /\
    x boid' = x (rest_at 0 0) + vx boid'.
Proof.
  split; [reflexivity|]. split; [exact example_first|].
  destruct (update_boid_moves_by_velocity example_world 0 0 example_flock
              (rest_at 0 0) _ eq_refl eq_refl example_first)
    as (boid' & Hg & Hx & _).
  exists boid'. split; [exact Hg|exact Hx].
Defined.

(** X8.  The trail is a sliding window: if the trail is within the capacity
    [n] before [update_position], afterwards it consists of the last
    [min (length + 1) n] entries of the old trail followed by the position
    just left. *)
Theorem update_position_keeps_latest (n : Z) (self : Boid) :
  (0 <= n)%Z -> (Z.of_nat (length (pos_history self)) <= n)%Z ->
  pos_history (update_position n self)
  = drop (length (pos_history self) + 1 - Z.to_nat n)
         (pos_history self ++ [(x self, y self)]) /\
  length (pos_history (update_position n self))
  = Nat.min (length (pos_history self) + 1) (Z.to_nat n).
Proof.
  intros Hn Hlen. rewrite update_position_history, length_app. cbn [length].
  destruct (Z.ltb_spec n (Z.of_nat (length (pos_history self) + 1)))
    as [Hlt|Hge].
  - replace (length (pos_history self) + 1 - Z.to_nat n)%nat with 1%nat by lia.
    split; [reflexivity|]. rewrite length_drop, length_app. cbn [length]. lia.
  - replace (length (pos_history self) + 1 - Z.to_nat n)%nat with 0%nat by lia.
    split; [reflexivity|]. rewrite length_app. cbn [length]. lia.
Qed.

(** A full trail of capacity 2. *)
Lemma update_position_keeps_latest_witness :
  (0 <= 2)%Z /\
  pos_history
    (update_position 2
       {| x := 2; y := 0; vx := 1; vy := 0;
          pos_history := [(0, 0); (1, 0)] |})
  = [(1, 0); (2, 0)].
Proof.
  split; [lia|].
  apply (proj1 (update_position_keeps_latest 2
                  {| x := 2; y := 0; vx := 1; vy := 0;
                     pos_history := [(0, 0); (1, 0)] |}
                  ltac:(lia) ltac:(cbn; lia))).
Defined.

(** ** The tick loop *)

Section trail_invariants.

Variable P : Z -> list (R * R) -> Prop.
Hypothesis P_step : forall n self,
  P n (pos_history self) -> P n (pos_history (update_position n self)).

Lemma update_boid_trail_invariant w fi bi w' :
  trail_invariant P w -> update_boid w fi bi = Ok w' -> trail_invariant P w'.
Proof.
  intros Hinv Hup. destruct (get_boid w fi bi) as [boid|] eqn:Hg.
  - unfold get_boid in Hg. destruct (flocks w !! fi) as [self|] eqn:Hf;
      [|discriminate].
    destruct (update_boid_eq _ _ _ _ _ _ Hf Hg Hup) as (a & b & ->).
    intros k flock j c Hk Hj.
    destruct (decide (k = fi)) as [->|Hne].
    + rewrite (lookup_put_boid_eq _ _ _ _ _ Hf) in Hk. injection Hk as <-.
      cbn [boids set_boids tracer_len] in *.
      destruct (decide (j = bi)) as [->|Hnj].
      * rewrite list_lookup_insert_eq in Hj by now apply lookup_lt_Some in Hg.
        injection Hj as <-. apply P_step.
        rewrite pos_history_steer, pos_history_clamp.
        cbn [pos_history set_velocity]. now apply (Hinv fi self bi).
      * rewrite list_lookup_insert_ne in Hj by congruence.
        now apply (Hinv fi self j).
    + rewrite lookup_put_boid_ne in Hk by assumption.
      now apply (Hinv k flock j).
  - rewrite (update_boid_missing _ _ _ Hg) in Hup. now injection Hup as <-.
Qed.

Lemma update_boids_trail_invariant fi bis : forall w w',
  trail_invariant P w -> update_boids w fi bis = Ok w' -> trail_invariant P w'.
Proof.
  induction bis as [|bi rest IH]; intros w w' Hinv; cbn [update_boids].
  - now intros [= <-].
  - intros H. apply bind_Ok in H as (w1 & E1 & H).
    eapply IH; [|exact H]. eapply update_boid_trail_invariant; eauto.
Qed.

Lemma update_flocks_trail_invariant fis : forall w w',
  trail_invariant P w -> update_flocks w fis = Ok w' -> trail_invariant P w'.
Proof.
  induction fis as [|fi rest IH]; intros w w' Hinv; cbn [update_flocks].
  - now intros [= <-].
  - intros H. apply bind_Ok in H as (w1 & E1 & H).
    eapply IH; [|exact H]. eapply update_boids_trail_invariant; eauto.
Qed.

Lemma handle_events_trail_invariant events : forall w w',
  trail_invariant P w -> handle_events w events = Some w' ->
  trail_invariant P w'.
Proof.
  induction events as [|[|w1 h1|] rest IH]; intros w w' Hinv;
    cbn [handle_events].
  - now intros [= <-].
  - discriminate.
  - apply IH. exact Hinv.
  - now apply IH.
Qed.

Lemma run_trail_invariant polls : forall w w',
  trail_invariant P w -> run w polls = Running w' -> trail_invariant P w'.
Proof.
  induction polls as [|events rest IH]; intros w w' Hinv; cbn [run].
  - now intros [= <-].
  - destruct (tick w) as [w1|] eqn:E1; [|discriminate].
    destruct (handle_events w1 events) as [w2|] eqn:E2; [|discriminate].
    apply IH. eapply handle_events_trail_invariant; [|exact E2].
    eapply update_flocks_trail_invariant; eauto.
Qed.

End trail_invariants.

Lemma run_without_quit polls : forall w,
  well_configured w -> Forall (fun events => QUIT ∉ events) polls ->
  exists w', run w polls = Running w' /\ well_configured w'.
Proof.
  induction polls as [|events rest IH]; intros w Hw Hq; cbn [run].
  - now exists w.
  - apply Forall_cons in Hq as [Hq Hrest].
    destruct (tick_total w Hw) as (w1 & -> & Hw1).
    destruct (handle_events_no_quit events w1 Hq) as (w2 & E2). rewrite E2.
    apply IH; [|exact Hrest]. eapply handle_events_well_configured; eauto.
Qed.

Lemma trailless_world_well_configured : well_configured trailless_world.
Proof.
  intros k f Hk. destruct k as [|k]; [|destruct k; discriminate].
  injection Hk as <-. split; [constructor|cbn; lra].
Qed.

(** X9.  In a flock whose [tracer_len] is zero or negative every trail stays
    empty for the whole run: each position appended by [update_position] is
    popped at once. *)
Theorem nonpositive_tracer_len_keeps_trails_empty
    (flock_config : list FlockConfig) (window_size : Z * Z) (bg : ColorType)
    (sl : R) (rng : nat -> R) (polls : list (list event)) (w' : Simulation) :
  run (Simulation_init flock_config window_size bg sl rng) polls = Running w' ->
  forall fi flock bi boid,
    flocks w' !! fi = Some flock -> boids flock !! bi = Some boid ->
    (tracer_len flock <= 0)%Z -> pos_history boid = [].
Proof.
  intros Hrun.
  apply (run_trail_invariant
           (fun n h => (n <= 0)%Z -> h = [])) in Hrun.
  - exact Hrun.
  - intros n self Hh Hn. rewrite update_position_history, (Hh Hn).
    cbn [app length]. destruct (Z.ltb_spec n (Z.of_nat 1)); [reflexivity|lia].
  - intros fi flock bi boid Hf Hb _.
    apply (make_flocks_fresh (fst window_size) (snd window_size)
             flock_config rng 0 flock boid).
    + eapply list_elem_of_lookup_2. exact Hf.
    + eapply list_elem_of_lookup_2. exact Hb.
Qed.

(** Three ticks of a world whose only flock has [tracer_len = 0]. *)
Lemma nonpositive_tracer_len_keeps_trails_empty_witness :
  exists w',
    run trailless_world [[]; [OTHER]; []] = Running w' /\
    forall fi flock bi boid,
      flocks w' !! fi = Some flock -> boids flock !! bi = Some boid ->
      (tracer_len flock <= 0)%Z -> pos_history boid = [].
Proof.
  destruct (run_without_quit [[]; [OTHER]; []] trailless_world
              trailless_world_well_configured) as (w' & Hrun & _).
  { repeat constructor; intros H; inversion H; subst;
      match goal with
      | H' : _ ∈ [] |- _ => inversion H'
      | _ => idtac
      end. }
  exists w'. split; [exact Hrun|].
  exact (nonpositive_tracer_len_keeps_trails_empty _ _ _ _ _ _ _ Hrun).
Defined.

Lemma handle_events_quit events : forall w,
  handle_events w events = None <-> QUIT ∈ events.
Proof.
  induction events as [|[|w1 h1|] rest IH]; intros w; cbn [handle_events].
  - split; [discriminate|intros H; inversion H].
  - split; [left|reflexivity].
  - rewrite IH. split; [now right|].
    intros [[=]|H]%elem_of_cons. exact H.
  - rewrite IH. split; [now right|].
    intros [[=]|H]%elem_of_cons. exact H.
Qed.

Lemma handle_events_flocks events : forall w w',
  handle_events w events = Some w' ->
  flocks w' = flocks w /\ background_color w' = background_color w /\
  step_length w' = step_length w.
Proof.
  induction events as [|[|w1 h1|] rest IH]; intros w w'; cbn [handle_events].
  - now intros [= <-].
  - discriminate.
  - intros H. now apply IH in H.
  - apply IH.
Qed.

Lemma handle_events_no_resize events : forall w w',
  (forall a b, VIDEORESIZE a b ∉ events) ->
  handle_events w events = Some w' ->
  width w' = width w /\ height w' = height w.
Proof.
  induction events as [|[|w1 h1|] rest IH]; intros w w' Hno;
    cbn [handle_events].
  - now intros [= <-].
  - discriminate.
  - exfalso. apply (Hno w1 h1). left.
  - apply IH. intros a b H. apply (Hno a b). now right.
Qed.

Lemma handle_events_app evs evs' : forall w,
  handle_events w (evs ++ evs')
  = match handle_events w evs with
    | Some w1 => handle_events w1 evs'
    | None => None
    end.
Proof.
  induction evs as [|[|w1 h1|] rest IH]; intros w; cbn [app handle_events];
    [reflexivity|reflexivity|apply IH|apply IH].
Qed.

(** X10.  The events of one poll are handled in order.  A quit event
    anywhere in the batch ends the program (and only that does); otherwise
    the flocks, the background and the step length are untouched, the last
    resize event of the batch decides the window size, and without a resize
    event the size is kept. *)
Theorem handle_events_quit_and_resize (w : Simulation) (events : list event) :
  (handle_events w events = None <-> QUIT ∈ events) /\
  (forall w', handle_events w events = Some w' ->
     flocks w' = flocks w /\ background_color w' = background_color w /\
     step_length w' = step_length w) /\
  (forall before a b after w',
     events = before ++ VIDEORESIZE a b :: after ->
     (forall a' b', VIDEORESIZE a' b' ∉ after) ->
     handle_events w events = Some w' ->
     width w' = a /\ height w' = b) /\
  (forall w',
     (forall a b, VIDEORESIZE a b ∉ events) ->
     handle_events w events = Some w' ->
     width w' = width w /\ height w' = height w).
Proof.
  split; [apply handle_events_quit|]. split; [apply handle_events_flocks|].
  split; [|intros w'; apply handle_events_no_resize].
  intros before a b after w' -> Hno. rewrite handle_events_app.
  destruct (handle_events w before) as [w1|]; [|discriminate].
  cbn [handle_events]. intros H.
  now apply handle_events_no_resize in H.
Qed.

(** Two resize events in one batch. *)
Lemma handle_events_quit_and_resize_witness :
  exists w',
    handle_events example_world
      [VIDEORESIZE 640 480; OTHER; VIDEORESIZE 1024 768; OTHER] = Some w' /\
    width w' = 1024%Z /\ height w' = 768%Z.
Proof.
  eexists. split; [reflexivity|].
  apply (proj1 (proj2 (proj2 (handle_events_quit_and_resize example_world
                  [VIDEORESIZE 640 480; OTHER; VIDEORESIZE 1024 768; OTHER])))
           [VIDEORESIZE 640 480; OTHER] 1024%Z 768%Z [OTHER] _ eq_refl).
  - intros a' b' H. apply list_elem_of_singleton in H. discriminate.
  - reflexivity.
Defined.




Lemma same_population_refl w : same_population w w.
Proof.
  split; [reflexivity|]. intros k f Hk. exists f.
  split; [exact Hk|]. split; [now apply parameters_same|reflexivity].
Qed.

Lemma same_parameters_trans f1 f2 f3 :
  same_parameters f1 f2 -> same_parameters f2 f3 -> same_parameters f1 f3.
Proof. unfold same_parameters. intuition congruence. Qed.

Lemma same_population_trans w1 w2 w3 :
  same_population w1 w2 -> same_population w2 w3 -> same_population w1 w3.
Proof.
  intros [Hl12 H12] [Hl23 H23]. split; [congruence|].
  intros k f Hk. destruct (H12 k f Hk) as (f2 & Hk2 & Hp2 & Hn2).
  destruct (H23 k f2 Hk2) as (f3 & Hk3 & Hp3 & Hn3).
  exists f3. split; [exact Hk3|].
  split; [now apply same_parameters_trans with (f2 := f2)|congruence].
Qed.

Lemma update_boid_same_population w fi bi w' :
  update_boid w fi bi = Ok w' ->
  width w' = width w /\ height w' = height w /\
  background_color w' = background_color w /\
  step_length w' = step_length w /\ same_population w w'.
Proof.
  intros Hup. destruct (update_boid_only_boid_changed _ _ _ _ Hup).
  do 4 (split; [assumption|]). split; [assumption|].
  intros k f Hk. destruct (frame_parameters0 k f Hk) as (f' & Hk' & Hp & Hl).
  exists f'. split; [assumption|]. split; [now apply parameters_same|assumption].
Qed.

Lemma update_boids_same_population fi bis : forall w w',
  update_boids w fi bis = Ok w' ->
  width w' = width w /\ height w' = height w /\
  background_color w' = background_color w /\
  step_length w' = step_length w /\ same_population w w'.
Proof.
  induction bis as [|bi rest IH]; intros w w'; cbn [update_boids].
  - intros [= <-]. do 4 (split; [reflexivity|]). apply same_population_refl.
  - intros H. apply bind_Ok in H as (w1 & E1 & H).
    apply update_boid_same_population in E1 as (? & ? & ? & ? & ?).
    apply IH in H as (? & ? & ? & ? & ?).
    do 4 (split; [congruence|]).
    now apply same_population_trans with (w2 := w1).
Qed.

Lemma update_flocks_same_population fis : forall w w',
  update_flocks w fis = Ok w' ->
  width w' = width w /\ height w' = height w /\
  background_color w' = background_color w /\
  step_length w' = step_length w /\ same_population w w'.
Proof.
  induction fis as [|fi rest IH]; intros w w'; cbn [update_flocks].
  - intros [= <-]. do 4 (split; [reflexivity|]). apply same_population_refl.
  - intros H. apply bind_Ok in H as (w1 & E1 & H).
    apply update_boids_same_population in E1 as (? & ? & ? & ? & ?).
    apply IH in H as (? & ? & ? & ? & ?).
    do 4 (split; [congruence|]).
    now apply same_population_trans with (w2 := w1).
Qed.

Lemma run_same_population polls : forall w w',
  run w polls = Running w' ->
  background_color w' = background_color w /\
  step_length w' = step_length w /\ same_population w w'.
Proof.
  induction polls as [|events rest IH]; intros w w'; cbn [run].
  - intros [= <-]. do 2 (split; [reflexivity|]). apply same_population_refl.
  - destruct (tick w) as [w1|] eqn:E1; [|discriminate].
    destruct (handle_events w1 events) as [w2|] eqn:E2; [|discriminate].
    intros H. apply IH in H as (Hb & Hs & Hp).
    apply update_flocks_same_population in E1 as (_ & _ & Hb1 & Hs1 & Hp1).
    apply handle_events_flocks in E2 as (Hf2 & Hb2 & Hs2).
    split; [congruence|]. split; [congruence|].
    apply same_population_trans with (w2 := w1); [exact Hp1|].
    destruct Hp as [Hl Hp]. split; [congruence|].
    intros k f Hk. apply Hp. now rewrite Hf2.
Qed.

(** X12.  The population is fixed.  A tick leaves the window size, the
    background, the step length, the number of flocks, every parameter of
    every flock and the number of agents of every flock as they were; a
    whole run does too, except for the window size, which resize events
    change. *)
Theorem population_is_fixed :
  (forall w w', tick w = Ok w' ->
     width w' = width w /\ height w' = height w /\
     background_color w' = background_color w /\
     step_length w' = step_length w /\ same_population w w') /\
  (forall w polls w', run w polls = Running w' ->
     background_color w' = background_color w /\
     step_length w' = step_length w /\ same_population w w').
Proof.
  split.
  - intros w w'. apply update_flocks_same_population.
  - intros w polls w'. apply run_same_population.
Qed.

(** Two ticks of the example world with a resize in between. *)
Lemma population_is_fixed_witness :
  exists w',
    run example_world [[VIDEORESIZE 640 480]; []] = Running w' /\
    same_population example_world w'.
Proof.
  destruct (run_without_quit [[VIDEORESIZE 640 480]; []] example_world
              example_world_well_configured) as (w' & Hrun & _).
  { constructor; [|constructor; [|constructor]]; intros H; inversion H; subst.
    match goal with H' : _ ∈ [] |- _ => inversion H' end. }
  exists w'. split; [exact Hrun|].
  exact (proj2 (proj2 (proj2 population_is_fixed example_world _ w' Hrun))).
Defined.

(** ** Centre, colours, construction and lookup *)

Lemma foldl_Rplus l : forall a, foldl Rplus a l = a + sum_R l.
Proof.
  induction l as [|r l IH]; intros a; cbn [foldl].
  - unfold sum_R. cbn. lra.
  - rewrite IH. unfold sum_R. cbn. lra.
Qed.

Lemma py_sum_sum_R l : py_sum l = sum_R l.
Proof. unfold py_sum. rewrite foldl_Rplus. lra. Qed.

Lemma sum_R_bounds (f : Boid -> R) lo hi l :
  (forall b, b ∈ l -> lo <= f b <= hi) ->
  INR (length l) * lo <= sum_R (map f l) <= INR (length l) * hi.
Proof.
  induction l as [|b l IH]; intros Hall.
  - unfold sum_R. cbn. lra.
  - destruct (Hall b) as [Hlo Hhi]; [left|].
    destruct IH as [IHlo IHhi]; [intros c Hc; apply Hall; now right|].
    cbn [map length]. rewrite S_INR. unfold sum_R in *. cbn [foldr]. lra.
Qed.

(** X13.  [get_center] raises [ZeroDivisionError] on a flock without agents
    and otherwise returns the arithmetic mean of the positions, which lies
    in every axis-parallel box that holds all the agents (for a single agent
    it is the agent's position). *)
Theorem get_center_is_mean (self : Flock) :
  (boids self = [] -> get_center self = Raise ZeroDivisionError) /\
  (boids self <> [] ->
   exists cx cy,
     get_center self = Ok (cx, cy) /\
     cx = sum_R (map x (boids self)) / INR (length (boids self)) /\
     cy = sum_R (map y (boids self)) / INR (length (boids self)) /\
     (forall lo hi, (forall b, b ∈ boids self -> lo <= x b <= hi) ->
                    lo <= cx <= hi) /\
     (forall lo hi, (forall b, b ∈ boids self -> lo <= y b <= hi) ->
                    lo <= cy <= hi)).
Proof.
  split; [apply get_center_empty|]. intros Hne.
  assert (0 < INR (length (boids self))) as Hpos.
  { apply lt_0_INR. destruct (boids self); [contradiction|cbn; lia]. }
  unfold get_center. rewrite !py_div_nonzero, !py_sum_sum_R by lra.
  cbn [bind]. eexists. eexists. split; [reflexivity|].
  split; [reflexivity|]. split; [reflexivity|].
  split; intros lo hi Hall; apply sum_R_bounds in Hall as [Hlo Hhi]; split.
  - apply Rmult_le_reg_r with (r := INR (length (boids self))); [exact Hpos|].
    unfold Rdiv. rewrite Rmult_assoc, Rinv_l by lra. lra.
  - apply Rmult_le_reg_r with (r := INR (length (boids self))); [exact Hpos|].
    unfold Rdiv. rewrite Rmult_assoc, Rinv_l by lra. lra.
  - apply Rmult_le_reg_r with (r := INR (length (boids self))); [exact Hpos|].
    unfold Rdiv. rewrite Rmult_assoc, Rinv_l by lra. lra.
  - apply Rmult_le_reg_r with (r := INR (length (boids self))); [exact Hpos|].
    unfold Rdiv. rewrite Rmult_assoc, Rinv_l by lra. lra.
Qed.

(** The centre of the two agents of the example flock. *)
Lemma get_center_is_mean_witness :
  boids example_flock <> [] /\
  exists cx cy, get_center example_flock = Ok (cx, cy) /\ 0 <= cx <= 3.
Proof.
  assert (boids example_flock <> []) as Hne by discriminate.
  split; [exact Hne|].
  destruct (proj2 (get_center_is_mean example_flock) Hne)
    as (cx & cy & Hc & _ & _ & Hbox & _).
  exists cx, cy. split; [exact Hc|]. apply Hbox.
  intros b Hb. cbn in Hb.
  apply elem_of_cons in Hb as [->|Hb];
    [|apply list_elem_of_singleton in Hb as ->]; cbn; lra.
Defined.

Lemma py_int_IZR z : py_int (IZR z) = z.
Proof.
  unfold py_int. destruct (Rle_dec 0 (IZR z)) as [Hpos|Hneg].
  - symmetry. apply Int_part_spec. lra.
  - rewrite <- opp_IZR. rewrite <- (Int_part_spec (IZR (- z)) (- z)) by lra.
    lia.
Qed.

Lemma py_int_between (c g : Z) (r : R) :
  (0 <= c)%Z -> IZR c <= r <= IZR (c + g) -> (c <= py_int r <= c + g)%Z.
Proof.
  intros Hc [Hlo Hhi]. unfold py_int.
  assert (0 <= r) as Hr by (apply IZR_le in Hc; lra).
  destruct (Rle_dec 0 r); [|contradiction].
  destruct (base_Int_part r) as [H1 H2]. split.
  - assert (IZR c - 1 < IZR (Int_part r)) as H by lra.
    rewrite <- minus_IZR in H. apply lt_IZR in H. lia.
  - apply le_IZR. lra.
Qed.

(** X14.  [lighten] on a colour with channels in 0..255.  With the default
    scale 1 every channel is raised by the gap between the brightest channel
    and 255, so the brightest channel becomes 255 and the differences
    between channels are kept; with scale 0 the colour is unchanged; and for
    every scale between 0 and 1 each channel lies between the two, so the
    result is a colour again and is not darker. *)
Theorem lighten_stays_a_color (c0 c1 c2 : Z) (scale : R) :
  (0 <= c0 <= 255)%Z -> (0 <= c1 <= 255)%Z -> (0 <= c2 <= 255)%Z ->
  let gap := (255 - Z.max (Z.max c0 c1) c2)%Z in
  lighten (c0, c1, c2) 1 = ((c0 + gap)%Z, (c1 + gap)%Z, (c2 + gap)%Z) /\
  lighten (c0, c1, c2) 0 = (c0, c1, c2) /\
  (0 <= scale <= 1 ->
   let '(r0, r1, r2) := lighten (c0, c1, c2) scale in
   (c0 <= r0 <= c0 + gap)%Z /\ (c1 <= r1 <= c1 + gap)%Z /\
   (c2 <= r2 <= c2 + gap)%Z /\ (0 <= gap)%Z /\
   (r0 <= 255)%Z /\ (r1 <= 255)%Z /\ (r2 <= 255)%Z).
Proof.
  intros H0 H1 H2 gap.
  assert (Z.min (Z.min (255 - c0) (255 - c1)) (255 - c2) = gap) as Hgap
    by (unfold gap; lia).
  unfold lighten. rewrite Hgap. split; [|split].
  - rewrite Rmult_1_r, <- !plus_IZR, !py_int_IZR.
    f_equal; [f_equal|]; unfold gap; lia.
  - rewrite Rmult_0_r, !Rplus_0_r, !py_int_IZR. f_equal; [f_equal|]; lia.
  - intros [Hs0 Hs1].
    assert (0 <= gap)%Z as Hg by (unfold gap; lia).
    assert (0 <= IZR gap * scale <= IZR gap) as [Ha0 Ha1].
    { apply IZR_le in Hg. split; nra. }
    assert (forall c, (0 <= c)%Z ->
              (c <= py_int (IZR c + IZR gap * scale) <= c + gap)%Z) as Hb.
    { intros c Hc. apply py_int_between; [exact Hc|].
      rewrite plus_IZR. lra. }
    pose proof (Hb c0 ltac:(lia)). pose proof (Hb c1 ltac:(lia)).
    pose proof (Hb c2 ltac:(lia)). unfold gap in *. lia.
Qed.

(** The colour of the movers and its tracer colour. *)
Lemma lighten_stays_a_color_witness :
  (0 <= 10 <= 255)%Z /\ (0 <= 20 <= 255)%Z /\ (0 <= 30 <= 255)%Z /\
  lighten (10, 20, 30)%Z 1 = (235, 245, 255)%Z.
Proof.
  split; [lia|]. split; [lia|]. split; [lia|].
  exact (proj1 (lighten_stays_a_color 10 20 30 1 ltac:(lia) ltac:(lia)
                  ltac:(lia))).
Defined.

Lemma from_config_length sim_width sim_height conf rng k :
  length (boids (from_config sim_width sim_height conf rng k))
  = Z.to_nat (cfg_count conf).
Proof. apply create_boids_length. Qed.

Lemma make_flocks_lookup sim_width sim_height rng flock_config :
  forall k0 k conf,
    flock_config !! k = Some conf ->
    make_flocks sim_width sim_height flock_config rng k0 !! k
    = Some (from_config sim_width sim_height conf rng
              (k0 + draws_before flock_config k)).
Proof.
  induction flock_config as [|c rest IH]; intros k0 k conf Hk;
    [discriminate|].
  cbn [make_flocks]. destruct k as [|k].
  - injection Hk as <-. cbn. unfold draws_before. cbn.
    now rewrite Nat.add_0_r.
  - cbn [lookup list_lookup] in *. rewrite (IH _ k conf Hk). do 2 f_equal.
    rewrite from_config_length. unfold draws_before.
    cbn [take map sum_list sum_list_with]. unfold Datatypes.id. lia.
Qed.

Lemma make_flocks_length sim_width sim_height rng flock_config : forall k0,
  length (make_flocks sim_width sim_height flock_config rng k0)
  = length flock_config.
Proof.
  induction flock_config as [|c rest IH]; intros k0; cbn; [reflexivity|].
  now rewrite IH.
Qed.

Lemma create_boids_lookup dimensions lo hi rng n : forall k j,
  (j < n)%nat ->
  create_boids dimensions lo hi rng k n !! j
  = Some (create_random (0, 0) dimensions lo hi
            (rng (k + 4 * j)%nat, rng (k + 4 * j + 1)%nat,
             rng (k + 4 * j + 2)%nat, rng (k + 4 * j + 3)%nat)).
Proof.
  induction n as [|n IH]; intros k j Hj; [lia|]. cbn [create_boids].
  destruct j as [|j].
  - cbn. now rewrite Nat.add_0_r.
  - cbn [lookup list_lookup]. rewrite IH by lia.
    replace (k + 4 + 4 * j)%nat with (k + 4 * S j)%nat by lia. reflexivity.
Qed.

(** X15.  [Simulation.__init__] builds one flock per configuration entry, in
    order.  The flock carries the entry's id, weights and tracer settings
    (an absent affinity list becomes the empty list, the tracer colour is
    the lightened colour) and has [count] agents, none for a negative
    [count].  Its [j]-th agent is made from four consecutive draws of
    [random()], and no draw serves two agents: the draws of a flock start
    after those of all the flocks before it. *)
Theorem Simulation_init_builds_configured_flocks
    (flock_config : list FlockConfig) (window_size : Z * Z) (bg : ColorType)
    (sl : R) (rng : nat -> R) :
  let w := Simulation_init flock_config window_size bg sl rng in
  width w = fst window_size /\ height w = snd window_size /\
  length (flocks w) = length flock_config /\
  forall k conf, flock_config !! k = Some conf ->
    exists flock,
      flocks w !! k = Some flock /\
      id flock = cfg_id conf /\ num_boids flock = cfg_count conf /\
      affinity flock = default [] (cfg_affinity conf) /\
      alignment flock = cfg_alignment conf /\
      separation flock = cfg_separation conf /\
      cohesion flock = cfg_cohesion conf /\
      min_separation flock = cfg_min_separation conf /\
      max_speed flock = cfg_max_speed conf /\
      boundary_force flock = cfg_boundary_force conf /\
      sight_range flock = cfg_sight_range conf /\
      color flock = cfg_color conf /\
      tracer_len flock = cfg_tracer_length conf /\
      tracer_color flock = lighten (cfg_color conf) (cfg_tracer_shade conf) /\
      tracer_enabled flock = cfg_tracer_enabled conf /\
      length (boids flock) = Z.to_nat (cfg_count conf) /\
      forall j, (j < Z.to_nat (cfg_count conf))%nat ->
        let d := (draws_before flock_config k + 4 * j)%nat in
        boids flock !! j
        = Some (create_random (0, 0)
                  (IZR (fst window_size) / 2, IZR (snd window_size) / 2)
                  (-1) 1
                  (rng d, rng (d + 1)%nat, rng (d + 2)%nat, rng (d + 3)%nat)).
Proof.
  intros w. split; [reflexivity|]. split; [reflexivity|].
  split; [apply make_flocks_length|].
  intros k conf Hk. eexists. split.
  - unfold w, Simulation_init. cbn [flocks].
    apply (make_flocks_lookup _ _ _ _ 0 k conf Hk).
  - cbn [Nat.add]. repeat (split; [reflexivity|]).
    split; [apply from_config_length|].
    intros j Hj. unfold from_config, Flock_init. cbn [boids].
    now rewrite create_boids_lookup by assumption.
Qed.

(** The world of one trailless boid. *)
Lemma Simulation_init_builds_configured_flocks_witness :
  [trailless_config] !! 0%nat = Some trailless_config /\
  exists flock,
    flocks trailless_world !! 0%nat = Some flock /\
    length (boids flock) = 1%nat /\ affinity flock = [].
Proof.
  split; [reflexivity|].
  destruct (proj2 (proj2 (proj2
              (Simulation_init_builds_configured_flocks [trailless_config]
                 (800, 600)%Z (0, 0, 0)%Z (1 / 20) (fun _ => 1 / 2))))
              0%nat trailless_config eq_refl)
    as (flock & Hf & _ & _ & Haf & _ & _ & _ & _ & _ & _ & _ & _ & _ & _ & _
        & Hlen & _).
  exists flock. split; [exact Hf|]. split; [exact Hlen|exact Haf].
Defined.

(** X16.  [get_flock] returns the first flock, in configuration order, whose
    id is the one asked for: with a duplicated id the later flock is never
    found, and a flock without id is never returned. *)
Theorem get_flock_returns_first_match (w : Simulation) (i : string)
    (flock : Flock) :
  get_flock w i = Ok flock <->
  exists k, flocks w !! k = Some flock /\ id flock = Some i /\
            forall j other, flocks w !! j = Some other -> (j < k)%nat ->
                            id other <> Some i.
Proof. apply get_flock_Ok. Qed.

(** In [twin_world] the flock with an agent comes first and is the one
    found. *)
Lemma get_flock_returns_first_match_witness :
  id prey_flock = id no_prey /\
  get_flock twin_world "prey" = Ok prey_flock.
Proof.
  split; [reflexivity|].
  apply (proj2 (get_flock_returns_first_match twin_world "prey" prey_flock)).
  exists 1%nat. split; [reflexivity|]. split; [reflexivity|].
  intros j other Hj Hlt. assert (j = 0%nat) as -> by lia.
  injection Hj as <-. discriminate.
Defined.

(** X17.  [in_range] is symmetric between two boids with the same sight
    range, grows with the range, and a boid is in its own range exactly when
    the range is not negative. *)
Theorem in_range_symmetric (sr : R) (a b : Boid) :
  in_range sr a b = in_range sr b a /\
  (forall sr', sr <= sr' -> in_range sr a b = true ->
               in_range sr' a b = true) /\
  (in_range sr a a = true <-> 0 <= sr).
Proof.
  unfold in_range. split; [|split].
  - rewrite (dist_sym (x a, y a) (x b, y b)). reflexivity.
  - intros sr' Hle. destruct (Rle_dec _ sr); [|discriminate].
    intros _. destruct (Rle_dec _ sr'); [reflexivity|lra].
  - rewrite dist_self. destruct (Rle_dec 0 sr) as [H|H].
    + split; [intros _; exact H|reflexivity].
    + split; [discriminate|intros H'; contradiction].
Qed.

(** A boid sees itself, and the two agents of the example flock see each
    other whichever asks. *)
Lemma in_range_symmetric_witness :
  50 <= 60 /\
  in_range 50 (rest_at 0 0) (rest_at 3 0)
  = in_range 50 (rest_at 3 0) (rest_at 0 0) /\
  in_range 50 (rest_at 0 0) (rest_at 0 0) = true.
Proof.
  split; [lra|]. split.
  - exact (proj1 (in_range_symmetric 50 (rest_at 0 0) (rest_at 3 0))).
  - apply (proj2 (proj2 (in_range_symmetric 50 (rest_at 0 0) (rest_at 0 0)))).
    lra.
Defined.

(** ** What a tick draws *)

Lemma draw_entity_put_boid w fi bi b' flock l boid :
  draw_entity (put_boid w fi bi b') (set_boids flock l) boid
  = draw_entity w flock boid.
Proof.
  unfold draw_entity, absolute_coords.
  now rewrite width_put_boid, height_put_boid.
Qed.

Lemma draw_and_update_boids_eq fi n : forall w j flock,
  flocks w !! fi = Some flock ->
  draw_and_update_boids w fi (seq j n)
  = do w' <- update_boids w fi (seq j n);
    Ok (map (draw_entity w flock) (take n (drop j (boids flock))), w').
Proof.
  induction n as [|n IH]; intros w j flock Hf; [reflexivity|].
  cbn [seq draw_and_update_boids update_boids].
  destruct (boids flock !! j) as [boid|] eqn:Hb.
  - rewrite (with_boid_found _ _ _ _ _ _ _ Hf Hb).
    rewrite (drop_S _ _ _ Hb). cbn [take map].
    destruct (update_boid w fi j) as [w1|e] eqn:Hup; [|reflexivity].
    cbn [bind].
    destruct (update_boid_eq _ _ _ _ _ _ Hf Hb Hup) as (a & b & ->).
    rewrite (IH _ (S j) _ (lookup_put_boid_eq _ _ _ _ _ Hf)).
    destruct (update_boids _ fi (seq (S j) n)) as [w2|e]; [|reflexivity].
    cbn [bind fst snd boids set_boids app].
    rewrite drop_insert_lt by lia. do 3 f_equal.
    apply map_ext. intros c. apply draw_entity_put_boid.
  - rewrite with_boid_missing by (unfold get_boid; now rewrite Hf).
    rewrite update_boid_missing by (unfold get_boid; now rewrite Hf).
    cbn [bind]. rewrite (IH _ (S j) _ Hf).
    apply lookup_ge_None in Hb.
    rewrite !drop_ge by lia. rewrite !take_nil.
    now destruct (update_boids w fi (seq (S j) n)).
Qed.

Lemma update_boid_later_flocks w fi bi w' :
  update_boid w fi bi = Ok w' ->
  width w' = width w /\ height w' = height w /\
  background_color w' = background_color w /\
  drop (S fi) (flocks w') = drop (S fi) (flocks w).
Proof.
  intros Hup. destruct (get_boid w fi bi) as [boid|] eqn:Hg.
  - unfold get_boid in Hg. destruct (flocks w !! fi) as [self|] eqn:Hf;
      [|discriminate].
    destruct (update_boid_eq _ _ _ _ _ _ Hf Hg Hup) as (a & b & ->).
    rewrite width_put_boid, height_put_boid.
    rewrite (flocks_put_boid _ _ _ _ _ Hf), drop_insert_lt by lia.
    unfold put_boid. now rewrite Hf.
  - rewrite (update_boid_missing _ _ _ Hg) in Hup. now injection Hup as <-.
Qed.

Lemma update_boids_later_flocks fi bis : forall w w',
  update_boids w fi bis = Ok w' ->
  width w' = width w /\ height w' = height w /\
  background_color w' = background_color w /\
  drop (S fi) (flocks w') = drop (S fi) (flocks w).
Proof.
  induction bis as [|bi rest IH]; intros w w'; cbn [update_boids].
  - now intros [= <-].
  - intros H. apply bind_Ok in H as (w1 & E1 & H).
    apply update_boid_later_flocks in E1 as (? & ? & ? & ?).
    apply IH in H as (? & ? & ? & ?). repeat split; congruence.
Qed.

Lemma draw_entity_same_window w w' flock boid :
  width w' = width w -> height w' = height w ->
  draw_entity w' flock boid = draw_entity w flock boid.
Proof.
  intros Hw Hh. unfold draw_entity, absolute_coords. now rewrite Hw, Hh.
Qed.

Lemma draw_and_update_flocks_eq m : forall w k,
  draw_and_update_flocks w (seq k m)
  = do w' <- update_flocks w (seq k m);
    Ok (flat_map (fun flock => map (draw_entity w flock) (boids flock))
                 (take m (drop k (flocks w))), w').
Proof.
  induction m as [|m IH]; intros w k; [reflexivity|].
  cbn [seq draw_and_update_flocks update_flocks]. unfold flock_size.
  destruct (flocks w !! k) as [flock|] eqn:Hf.
  - rewrite (draw_and_update_boids_eq k _ w 0 flock Hf).
    rewrite (drop_S _ _ _ Hf). cbn [take flat_map].
    destruct (update_boids w k (seq 0 (length (boids flock)))) as [w1|e]
      eqn:Hup; [|reflexivity].
    cbn [bind fst snd]. rewrite IH.
    apply update_boids_later_flocks in Hup as (Hw & Hh & _ & Hdrop).
    rewrite Hdrop.
    destruct (update_flocks w1 (seq (S k) m)) as [w2|e]; [|reflexivity].
    cbn [bind fst snd]. rewrite drop_0, take_ge by lia. do 3 f_equal.
    apply flat_map_ext. intros f. apply map_ext. intros c.
    now apply draw_entity_same_window.
  - cbn [seq draw_and_update_boids update_boids bind fst snd].
    rewrite IH. apply lookup_ge_None in Hf.
    rewrite !drop_ge by lia. rewrite !take_nil.
    now destruct (update_flocks w (seq (S k) m)).
Qed.

(** X18.  What a tick draws.  The frame starts with the background fill,
    then holds the tracers of all flocks, then one marker per boid, then
    the display update.  Every marker stands where its boid was when the
    tick began, although the boids before it have already been moved; and
    the world that the tick leaves is the one of [tick], the drawing
    changes nothing in it.  A tracer is drawn only for a trail of three
    points or more. *)
Theorem render_tick_shows_positions_before_the_tick (w : Simulation) :
  render_tick w
  = (do w' <- tick w;
     Ok (Fill (background_color w)
           :: draw_tracers w ++ bodies w ++ [DisplayUpdate], w')) /\
  (forall flock boid,
     draw_tracer w flock boid
     = if (3 <=? length (pos_history boid))%nat
       then [Lines (tracer_color flock) false
               (map (absolute_coords w) (pos_history boid))]
       else []).
Proof.
  split.
  - unfold render_tick, tick, bodies. rewrite draw_and_update_flocks_eq.
    rewrite drop_0, take_ge by lia.
    now destruct (update_flocks w (seq 0 (length (flocks w)))).
  - intros flock boid. unfold draw_tracer. cbn zeta. rewrite length_map.
    destruct (Nat.ltb_spec 2 (length (pos_history boid))),
             (Nat.leb_spec 3 (length (pos_history boid)));
      (reflexivity || lia).
Qed.

(** X19.  A tracer length of two or less never shows a tracer: throughout a
    run started by [Simulation.__init__], [draw_tracer] draws nothing for
    the boids of a flock whose [tracer_len] is at most 2, since their trails
    never reach three points. *)
Theorem short_tracers_are_never_drawn
    (flock_config : list FlockConfig) (window_size : Z * Z) (bg : ColorType)
    (sl : R) (rng : nat -> R) (polls : list (list event)) (w' : Simulation) :
  run (Simulation_init flock_config window_size bg sl rng) polls = Running w' ->
  forall fi flock bi boid,
    flocks w' !! fi = Some flock -> boids flock !! bi = Some boid ->
    (tracer_len flock <= 2)%Z -> draw_tracer w' flock boid = [].
Proof.
  intros Hrun fi flock bi boid Hf Hb Hlen.
  assert (length (pos_history boid) <= 2)%nat as Hshort.
  { destruct (Z.le_gt_cases 0 (tracer_len flock)) as [Hpos|Hneg].
    - pose proof (run_trail_bounded polls _ _
                    (Simulation_init_trail_bounded flock_config window_size
                       bg sl rng) Hrun fi flock bi boid Hf Hb Hpos). lia.
    - apply (run_trail_invariant
               (fun n h => (n <= 0)%Z -> h = [])) in Hrun.
      + rewrite (Hrun fi flock bi boid Hf Hb) by lia. cbn. lia.
      + intros n self Hh Hn. rewrite update_position_history, (Hh Hn).
        cbn [app length].
        destruct (Z.ltb_spec n (Z.of_nat 1)); [reflexivity|lia].
      + intros fi' flock' bi' boid' Hf' Hb' _.
        apply (make_flocks_fresh (fst window_size) (snd window_size)
                 flock_config rng 0 flock' boid').
        * eapply list_elem_of_lookup_2. exact Hf'.
        * eapply list_elem_of_lookup_2. exact Hb'. }
  unfold draw_tracer. cbn zeta. rewrite length_map.
  destruct (Nat.ltb_spec 2 (length (pos_history boid))); [lia|reflexivity].
Qed.

(** Three ticks of the trailless world. *)
Lemma short_tracers_are_never_drawn_witness :
  exists w',
    run trailless_world [[]; []; []] = Running w' /\
    forall fi flock bi boid,
      flocks w' !! fi = Some flock -> boids flock !! bi = Some boid ->
      (tracer_len flock <= 2)%Z -> draw_tracer w' flock boid = [].
Proof.
  destruct (run_without_quit [[]; []; []] trailless_world
              trailless_world_well_configured) as (w' & Hrun & _).
  { repeat constructor; intros H; inversion H. }
  exists w'. split; [exact Hrun|].
  exact (short_tracers_are_never_drawn _ _ _ _ _ _ _ Hrun).
Defined.

(** ** The ways [update_boid] can fail *)

Lemma unknown_id_iff w i :
  unknown_id w i <-> get_flock w i = Raise (KeyError (no_flock_message i)).
Proof.
  split; [apply get_flock_unknown|].
  intros [_ Hall]%get_flock_Raise flock Hin.
  eapply Forall_forall in Hall; eauto.
Qed.

Lemma affinity_failure_put_boid_back w fi bi b i e :
  affinity_failure (put_boid w fi bi b) i e -> affinity_failure w i e.
Proof.
  intros [[Hun ->]|(target & Hg & Hempty & ->)].
  - left. split; [|reflexivity]. apply unknown_id_iff in Hun.
    destruct (get_flock w i) as [flock|e] eqn:Hw.
    + destruct (get_flock_put_boid_Ok _ fi bi b _ _ Hw) as (f' & Hf' & _).
      rewrite Hf' in Hun. discriminate.
    + apply get_flock_Raise in Hw as [-> Hall].
      intros flock Hin. eapply Forall_forall in Hall; eauto.
  - right. destruct (get_flock w i) as [flock|e] eqn:Hw.
    + destruct (get_flock_put_boid_Ok _ fi bi b _ _ Hw) as (f' & Hf' & Hlen).
      rewrite Hf' in Hg. injection Hg as ->. rewrite Hempty in Hlen.
      exists flock. split; [reflexivity|].
      split; [now destruct (boids flock)|reflexivity].
    + apply (get_flock_put_boid_Raise _ fi bi b) in Hw.
      rewrite Hw in Hg. discriminate.
Qed.

Lemma rule_affinity_loop_failure entries : forall w fi bi self boid e,
  flocks w !! fi = Some self -> boids self !! bi = Some boid ->
  rule_affinity_loop w fi bi entries = Raise e ->
  exists i s, (i, s) ∈ entries /\ affinity_failure w i e.
Proof.
  induction entries as [|[flock_id aff] rest IH];
    intros w fi bi self boid e Hf Hb; cbn [rule_affinity_loop];
    [discriminate|].
  rewrite (with_boid_found _ _ _ _ _ _ _ Hf Hb).
  destruct (get_flock w flock_id) as [flock|e0] eqn:Hg.
  2:{ cbn [bind]. intros [= ->]. exists flock_id, aff. split; [left|].
      left. apply get_flock_Raise in Hg as [-> Hall]. split; [|reflexivity].
      intros f Hin. eapply Forall_forall in Hall; eauto. }
  cbn [bind]. destruct (boids flock) as [|c cs] eqn:Hbs.
  { cbn [py_min bind]. intros [= <-]. exists flock_id, aff. split; [left|].
    right. now exists flock. }
  cbn [py_min bind]. intros Hrest.
  destruct (in_range _ _ _).
  - match type of Hrest with
    | rule_affinity_loop (put_boid _ _ _ ?b') _ _ _ = _ =>
        apply (IH _ fi bi (set_boids self (<[bi := b']> (boids self))) b')
          in Hrest as (i & s & Hin & Hfail);
          [|now apply lookup_put_boid_eq
           |now apply (boid_after_put w fi bi self boid)]
    end.
    exists i, s. split; [now right|].
    eapply affinity_failure_put_boid_back. exact Hfail.
  - apply (IH _ fi bi self boid) in Hrest as (i & s & Hin & Hfail);
      [|assumption|assumption].
    exists i, s. split; [now right|exact Hfail].
Qed.

(** X20.  The only ways [update_boid] can fail: an affinity entry whose id no
    flock carries ([KeyError] naming it), an affinity entry whose target
    flock has no agent ([ValueError]), or a negative [max_speed] meeting an
    agent at rest ([ZeroDivisionError]).  Alignment, cohesion, separation,
    the boundary step and the move itself never raise. *)
Theorem update_boid_failures (w : Simulation) (fi bi : nat)
    (self : Flock) (boid : Boid) (e : exn) :
  flocks w !! fi = Some self -> boids self !! bi = Some boid ->
  update_boid w fi bi = Raise e ->
  (exists i strength,
     (i, strength) ∈ affinity self /\
     (forall flock, flock ∈ flocks w -> id flock <> Some i) /\
     e = KeyError (no_flock_message i)) \/
  (exists i strength target,
     (i, strength) ∈ affinity self /\ get_flock w i = Ok target /\
     boids target = [] /\ e = ValueError) \/
  (max_speed self < 0 /\ e = ZeroDivisionError).
Proof.
  intros Hf Hb. unfold update_boid.
  destruct (before_affinity _ _ _ _ _ Hf Hb) as (a & b & E).
  apply bind_Ok in E as (w2 & E2 & [= E3]). rewrite E2. cbn [bind].
  rewrite E3. set (b3 := set_velocity boid a b).
  pose proof (lookup_put_boid_eq w fi bi b3 self Hf) as Hf3.
  pose proof (boid_after_put w fi bi self boid b3 Hf Hb) as Hb3.
  destruct (rule_affinity (put_boid w fi bi b3) fi bi) as [w4|e4] eqn:E4.
  - cbn [bind].
    destruct (rule_affinity_velocity _ _ _ _ _ _ Hf3 Hb3 E4) as (c & d & ->).
    rewrite put_boid_put_boid.
    set (b4 := set_velocity b3 c d).
    pose proof (lookup_put_boid_eq w fi bi b4 self Hf) as Hf4.
    pose proof (boid_after_put w fi bi self boid b4 Hf Hb) as Hb4.
    destruct (limit_speed (put_boid w fi bi b4) fi bi) as [w5|e5] eqn:E5.
    + cbn [bind]. apply (limit_speed_Ok _ _ _ _ _ _ Hf4 Hb4) in E5. subst w5.
      rewrite put_boid_put_boid.
      set (b5 := clamp_velocity _ b4).
      pose proof (lookup_put_boid_eq w fi bi b5 self Hf) as Hf5.
      pose proof (boid_after_put w fi bi self boid b5 Hf Hb) as Hb5.
      rewrite (keep_in_bounds_eq _ _ _ _ _ Hf5 Hb5). discriminate.
    + cbn [bind]. intros [= <-]. right. right.
      unfold limit_speed in E5.
      rewrite (with_boid_found _ _ _ _ _ _ _ Hf4 Hb4) in E5. cbn zeta in E5.
      destruct (Rgt_dec _ _) as [Hgt|]; [|discriminate].
      unfold py_div in E5. destruct (Req_dec_T _ 0) as [H0|];
        [|discriminate].
      cbn [max_speed set_boids] in Hgt. rewrite H0 in Hgt.
      cbn [bind] in E5. injection E5 as <-. split; [lra|reflexivity].
  - cbn [bind]. intros [= <-]. unfold rule_affinity in E4.
    rewrite (with_boid_found _ _ _ _ _ _ _ Hf3 Hb3) in E4.
    cbn [affinity set_boids] in E4.
    apply (rule_affinity_loop_failure _ _ _ _ _ _ _ Hf3 Hb3) in E4
      as (i & s & Hin & Hfail).
    apply affinity_failure_put_boid_back in Hfail
      as [[Hun ->]|(target & Hg & Hempty & ->)].
    + left. now exists i, s.
    + right. left. now exists i, s, target.
Qed.

Lemma hunt_world_update_raises :
  update_boid hunt_world 0 0 = Raise ValueError.
Proof.
  unfold update_boid.
  rewrite (rule_alignment_zero hunt_world 0 0 hunters eq_refl eq_refl).
  rewrite (rule_cohesion_zero hunt_world 0 0 hunters eq_refl eq_refl).
  cbn [bind].
  assert (rule_separation hunt_world 0 0 = hunt_world) as ->.
  { rewrite (rule_separation_eq hunt_world 0 0 hunters (rest_at 0 0)
               eq_refl eq_refl).
    unfold separation_spec, crowding_neighbors, others.
    cbn [boids hunters delete list_delete]. rewrite filter_nil.
    cbn [map sum_R foldr fst snd]. rewrite !Rmult_0_l, !Rplus_0_r.
    rewrite set_velocity_same.
    now apply (put_boid_same _ _ _ hunters). }
  now rewrite hunt_world_affinity_raises.
Qed.

(** The hunter of the empty prey flock fails for the second reason. *)
Lemma update_boid_failures_witness :
  flocks hunt_world !! 0%nat = Some hunters /\
  boids hunters !! 0%nat = Some (rest_at 0 0) /\
  exists e,
    update_boid hunt_world 0 0 = Raise e /\
    ((exists i strength,
        (i, strength) ∈ affinity hunters /\
        (forall flock, flock ∈ flocks hunt_world -> id flock <> Some i) /\
        e = KeyError (no_flock_message i)) \/
     (exists i strength target,
        (i, strength) ∈ affinity hunters /\
        get_flock hunt_world i = Ok target /\
        boids target = [] /\ e = ValueError) \/
     (max_speed hunters < 0 /\ e = ZeroDivisionError)).
Proof.
  split; [reflexivity|]. split; [reflexivity|].
  exists ValueError. split; [exact hunt_world_update_raises|].
  exact (update_boid_failures hunt_world 0 0 hunters (rest_at 0 0) ValueError
           eq_refl eq_refl hunt_world_update_raises).
Defined.
